(** * ngTagsInput [autoComplete]: the SuggestionList controller and its binder

    A shallow embedding of [src/auto-complete.js], in the order of the
    source:

    - JavaScript values the directive manipulates (candidates, references that
      may be [null] or [undefined], array indexing and [slice]);
    - the helpers of the repository's utility file the directive calls;
    - the mutable state: the fields of [self], the closure variables of
      [SuggestionList], the pending [$timeout] and [$q] callbacks;
    - a state-and-exception monad in which the methods are written with the
      statements in the order of the source;
    - the handlers registered in [link] and the event loop that runs them.

    Left out: the styling of the list element ([el.css]) and the rendering
    helpers [scope.highlight] and [scope.track], which change no state.
    Time is not modelled: a pending timer fires when the event loop says so,
    and its delay is only recorded. *)

From Stdlib Require Import ZArith Lia.
From stdpp Require Import base option list gmap strings fin_maps.

(** ** JavaScript values *)

(** A candidate (a suggestion or a tag) is a JavaScript object; the directive
    only ever reads properties of it.  Property values are strings, a missing
    property reads as [undefined], here [None]. *)
Abbreviation Item := (gmap string string).

(** What a data source may put in its array: the documentation of [source]
    promises strings, the tag input hands out objects. *)
Inductive RawItem :=
| RawString (s : string)
| RawObject (o : Item).

#[global] Instance RawItem_eq_dec : EqDecision RawItem.
Proof. solve_decision. Defined.

(** A variable that holds [null], [undefined] or an object. *)
Inductive Ref (A : Type) :=
| Null
| Undefined
| Obj (a : A).
Arguments Null {A}.
Arguments Undefined {A}.
Arguments Obj {A} a.

#[global] Instance Ref_eq_dec `{EqDecision A} : EqDecision (Ref A).
Proof. solve_decision. Defined.

(** JavaScript truthiness of such a variable: every object is truthy. *)
Definition truthy {A} (r : Ref A) : bool :=
  match r with
  | Obj _ => true
  | Null | Undefined => false
  end.

(** [array[i]] for a number [i] that is an integer: out of range, negative
    indices included, the read yields [undefined] and does not throw. *)
Definition js_at {A} (array : list A) (i : Z) : Ref A :=
  if (i <? 0)%Z then Undefined
  else match array !! Z.to_nat i with
       | Some x => Obj x
       | None => Undefined
       end.

(** [array.slice(0, end)] for an integer [end]: a negative [end] counts from
    the end of the array, and the bounds are clamped to the array. *)
Definition js_slice0 {A} (array : list A) (end_ : Z) : list A :=
  let len := Z.of_nat (length array) in
  let stop := if (end_ <? 0)%Z then Z.max (len + end_) 0 else Z.min end_ len in
  take (Z.to_nat stop) array.

(** What the promise of a fetch resolves to: an array, an envelope
    [{data: [...]}], or (a data source that breaks its contract) [null] or
    [undefined]. *)
Inductive Payload :=
| PArray (array : list RawItem)
| PEnvelope (data : list RawItem)
| PNull
| PUndefined.

Inductive JsError :=
| TypeError.

#[global] Instance JsError_eq_dec : EqDecision JsError.
Proof. solve_decision. Defined.

(** ** Options *)

(** [scope.options] after [tagsInputConfig.load], with
    [options.tagsInput = tagsInput.getOptions()]; of the latter the directive
    reads [displayProperty] only. *)
Record Options := MkOptions {
  debounceDelay : Z;
  minLength : Z;
  highlightMatchedText : bool;
  maxResultsToShow : Z;
  loadOnDownArrow : bool;
  loadOnEmpty : bool;
  loadOnFocus : bool;
  selectFirstMatch : bool;
  autoResize : Z;
  displayProperty : string
}.

(** The defaults [link] passes to [tagsInputConfig.load]. *)
Definition default_options (displayProperty : string) : Options :=
  MkOptions 100 3 true 10 false false false true (-1) displayProperty.

(** The key codes the handlers compare [event.keyCode] with.  The table [KEYS]
    is declared outside this file, so it is a parameter of the development. *)
Record KeyCodes := MkKeys {
  KEYS_enter : Z;
  KEYS_tab : Z;
  KEYS_escape : Z;
  KEYS_up : Z;
  KEYS_down : Z
}.

(** ** Helpers of the utility file *)

(** [getItem] of [link]: [item[options.tagsInput.displayProperty]]. *)
Definition getItem (options : Options) (item : Item) : option string :=
  item !! displayProperty options.

(** Modelled from the spec: [findInObjectArray(array, obj, key)] is declared
    in the utility file of the repository, not in [auto-complete.js].
    Following the spec ("two candidates are equal iff their display-field values are
    equal"; "whose display-field value matches any entry") it returns the
    first element of [array] whose [key] property equals that of [obj], and
    [null] when there is none. *)
Fixpoint findInObjectArray (array : list Item) (obj : Item) (key : string)
  : Ref Item :=
  match array with
  | [] => Null
  | x :: rest =>
      if bool_decide (x !! key = obj !! key) then Obj x
      else findInObjectArray rest obj key
  end.

(** Modelled from the spec: [makeObjectArray(array, key)] is declared in the
    utility file as well.  Following the spec ("normalize the result into a
    sequence of Candidate") a string [s] becomes the object [{key: s}] and an
    object is kept. *)
Definition makeObjectArray (array : list RawItem) (key : string) : list Item :=
  (λ raw, match raw with
          | RawString s => {[ key := s ]}
          | RawObject o => o
          end) <$> array.

(** ** The state *)

(** The two functions handed to [$timeout], with what they close over.
    [tags] is the array [tagsInput.getTags()] returned when [load] was
    called.  The host announces every change of its tags with [tag-added] or
    [tag-removed], whose handler resets the list and so drops the load token:
    when a resolution is applied the array still holds what it held at the
    call, and it is kept here by value. *)
Inductive TimeoutFn :=
| DebouncedLoad (query : string) (tags : list Item)
| ResetScroll.

#[global] Instance TimeoutFn_eq_dec : EqDecision TimeoutFn.
Proof. solve_decision. Defined.

(** Calls into the host tag input that change it. *)
Inductive HostCall :=
| AddTag (tag : Item)
| FocusInput.

#[global] Instance HostCall_eq_dec : EqDecision HostCall.
Proof. solve_decision. Defined.

Record State := MkState {
  (* the fields of [self] *)
  items : list Item;
  visible : bool;
  index : Z;
  selected : Ref Item;
  query : option string;
  (* the [var]s of [SuggestionList] *)
  debouncedLoadId : option nat;
  lastPromise : option nat;
  autoCompleteEl : bool;
  liHeight : option Z;
  (* the value last assigned to [autoCompleteEl[0].scrollTop] *)
  scrollTop : Z;
  (* [$timeout]: the callbacks not yet run, by timer, with their delay *)
  timeouts : gmap nat (TimeoutFn * Z);
  next_timeout : nat;
  (* [$q]: the unsettled promises of [load] with the [tags] their callback
     closes over *)
  promises : gmap nat (list Item);
  next_promise : nat;
  (* the host, and [$exceptionHandler] *)
  host_calls : list HostCall;
  exceptions : list JsError
}.

#[global] Instance State_eq_dec : EqDecision State.
Proof. solve_decision. Defined.

Definition with_items (v : list Item) (s : State) : State :=
  MkState v (visible s) (index s) (selected s) (query s) (debouncedLoadId s)
    (lastPromise s) (autoCompleteEl s) (liHeight s) (scrollTop s) (timeouts s)
    (next_timeout s) (promises s) (next_promise s) (host_calls s)
    (exceptions s).

Definition with_visible (v : bool) (s : State) : State :=
  MkState (items s) v (index s) (selected s) (query s) (debouncedLoadId s)
    (lastPromise s) (autoCompleteEl s) (liHeight s) (scrollTop s) (timeouts s)
    (next_timeout s) (promises s) (next_promise s) (host_calls s)
    (exceptions s).

Definition with_index (v : Z) (s : State) : State :=
  MkState (items s) (visible s) v (selected s) (query s) (debouncedLoadId s)
    (lastPromise s) (autoCompleteEl s) (liHeight s) (scrollTop s) (timeouts s)
    (next_timeout s) (promises s) (next_promise s) (host_calls s)
    (exceptions s).

Definition with_selected (v : Ref Item) (s : State) : State :=
  MkState (items s) (visible s) (index s) v (query s) (debouncedLoadId s)
    (lastPromise s) (autoCompleteEl s) (liHeight s) (scrollTop s) (timeouts s)
    (next_timeout s) (promises s) (next_promise s) (host_calls s)
    (exceptions s).

Definition with_query (v : option string) (s : State) : State :=
  MkState (items s) (visible s) (index s) (selected s) v (debouncedLoadId s)
    (lastPromise s) (autoCompleteEl s) (liHeight s) (scrollTop s) (timeouts s)
    (next_timeout s) (promises s) (next_promise s) (host_calls s)
    (exceptions s).

Definition with_debouncedLoadId (v : option nat) (s : State) : State :=
  MkState (items s) (visible s) (index s) (selected s) (query s) v
    (lastPromise s) (autoCompleteEl s) (liHeight s) (scrollTop s) (timeouts s)
    (next_timeout s) (promises s) (next_promise s) (host_calls s)
    (exceptions s).

Definition with_lastPromise (v : option nat) (s : State) : State :=
  MkState (items s) (visible s) (index s) (selected s) (query s)
    (debouncedLoadId s) v (autoCompleteEl s) (liHeight s) (scrollTop s)
    (timeouts s) (next_timeout s) (promises s) (next_promise s) (host_calls s)
    (exceptions s).

Definition with_liHeight (v : option Z) (s : State) : State :=
  MkState (items s) (visible s) (index s) (selected s) (query s)
    (debouncedLoadId s) (lastPromise s) (autoCompleteEl s) v (scrollTop s)
    (timeouts s) (next_timeout s) (promises s) (next_promise s) (host_calls s)
    (exceptions s).

Definition with_scrollTop (v : Z) (s : State) : State :=
  MkState (items s) (visible s) (index s) (selected s) (query s)
    (debouncedLoadId s) (lastPromise s) (autoCompleteEl s) (liHeight s) v
    (timeouts s) (next_timeout s) (promises s) (next_promise s) (host_calls s)
    (exceptions s).

Definition with_timeouts (v : gmap nat (TimeoutFn * Z)) (s : State) : State :=
  MkState (items s) (visible s) (index s) (selected s) (query s)
    (debouncedLoadId s) (lastPromise s) (autoCompleteEl s) (liHeight s)
    (scrollTop s) v (next_timeout s) (promises s) (next_promise s)
    (host_calls s) (exceptions s).

Definition with_next_timeout (v : nat) (s : State) : State :=
  MkState (items s) (visible s) (index s) (selected s) (query s)
    (debouncedLoadId s) (lastPromise s) (autoCompleteEl s) (liHeight s)
    (scrollTop s) (timeouts s) v (promises s) (next_promise s) (host_calls s)
    (exceptions s).

Definition with_promises (v : gmap nat (list Item)) (s : State) : State :=
  MkState (items s) (visible s) (index s) (selected s) (query s)
    (debouncedLoadId s) (lastPromise s) (autoCompleteEl s) (liHeight s)
    (scrollTop s) (timeouts s) (next_timeout s) v (next_promise s)
    (host_calls s) (exceptions s).

Definition with_next_promise (v : nat) (s : State) : State :=
  MkState (items s) (visible s) (index s) (selected s) (query s)
    (debouncedLoadId s) (lastPromise s) (autoCompleteEl s) (liHeight s)
    (scrollTop s) (timeouts s) (next_timeout s) (promises s) v (host_calls s)
    (exceptions s).

Definition with_host_calls (v : list HostCall) (s : State) : State :=
  MkState (items s) (visible s) (index s) (selected s) (query s)
    (debouncedLoadId s) (lastPromise s) (autoCompleteEl s) (liHeight s)
    (scrollTop s) (timeouts s) (next_timeout s) (promises s) (next_promise s)
    v (exceptions s).

Definition with_exceptions (v : list JsError) (s : State) : State :=
  MkState (items s) (visible s) (index s) (selected s) (query s)
    (debouncedLoadId s) (lastPromise s) (autoCompleteEl s) (liHeight s)
    (scrollTop s) (timeouts s) (next_timeout s) (promises s) (next_promise s)
    (host_calls s) v.

(** The five fields of [self] together. *)
Definition self_fields (s : State)
  : list Item * bool * Z * Ref Item * option string :=
  (items s, visible s, index s, selected s, query s).

(** ** A monad for statements *)

(** A statement either completes normally or throws; both leave a state. *)
Inductive Completion (A : Type) :=
| Normal (a : A) (s : State)
| Throw (e : JsError) (s : State).
Arguments Normal {A} a s.
Arguments Throw {A} e s.

#[global] Instance Completion_eq_dec `{EqDecision A} : EqDecision (Completion A).
Proof. solve_decision. Defined.

Definition JS (A : Type) : Type := State → Completion A.

#[global] Instance JS_ret : MRet JS := λ A a s, Normal a s.

#[global] Instance JS_bind : MBind JS := λ A B f m s,
  match m s with
  | Normal a s' => f a s'
  | Throw e s' => Throw e s'
  end.

Definition read {A} (f : State → A) : JS A := λ s, Normal (f s) s.
Definition write (f : State → State) : JS () := λ s, Normal () (f s).
Definition throw {A} (e : JsError) : JS A := λ s, Throw e s.

(** The state a statement leaves, however it completes. *)
Definition final {A} (c : Completion A) : State :=
  match c with
  | Normal _ s => s
  | Throw _ s => s
  end.

Definition completes {A} (c : Completion A) : bool :=
  match c with
  | Normal _ _ => true
  | Throw _ _ => false
  end.

(** ** Angular services *)

(** [$timeout(fn, delay)]: registers the callback, returns its promise. *)
Definition timeout (fn : TimeoutFn) (delay : Z) : JS nat :=
  id ← read next_timeout;
  pending ← read timeouts;
  write (with_timeouts (<[id := (fn, delay)]> pending));;
  write (with_next_timeout (S id));;
  mret id.

(** [$timeout.cancel(promise)]: removes a callback that has not run yet and
    answers whether it did; [undefined] and settled promises are ignored. *)
Definition timeout_cancel (promise : option nat) : JS bool :=
  pending ← read timeouts;
  match promise with
  | Some id =>
      if bool_decide (is_Some (pending !! id))
      then write (with_timeouts (delete id pending));; mret true
      else mret false
  | None => mret false
  end.

(** [$q.when(loadFn({$query: query}))] followed by [promise.then(callback)]
    where the callback closes over [tags]: a promise that no earlier call
    returned, settled later by the event loop. *)
Definition q_when (tags : list Item) : JS nat :=
  promise ← read next_promise;
  pending ← read promises;
  write (with_promises (<[promise := tags]> pending));;
  write (with_next_promise (S promise));;
  mret promise.

(** ** SuggestionList *)

Section SuggestionList.
Context (options : Options).

(** [getDifference], lines 64-68. *)
Definition getDifference (array1 array2 : list Item) : list Item :=
  List.filter
    (λ item,
       negb (truthy (findInObjectArray array2 item (displayProperty options))))
    array1.

(** [scroll], lines 56-61; a height of [0] is falsy like [undefined]. *)
Definition scroll : JS () :=
  el ← read autoCompleteEl;
  height ← read liHeight;
  match height with
  | Some h =>
      if el && negb (h =? 0)%Z
      then i ← read index; write (with_scrollTop ((i - 1) * h)%Z)
      else mret ()
  | None => mret ()
  end.

(** [self.reset], lines 70-80. *)
Definition reset : JS () :=
  write (with_lastPromise None);;
  write (with_items []);;
  write (with_visible false);;
  write (with_index (-1)%Z);;
  write (with_selected Null);;
  write (with_query None);;
  id ← read debouncedLoadId;
  timeout_cancel id;;
  mret ().

(** [self.select], lines 144-153. *)
Definition select (index : Z) : JS () :=
  array ← read items;
  let len := Z.of_nat (length array) in
  let index :=
    if (index <? 0)%Z then (len - 1)%Z
    else if (index >=? len)%Z then 0%Z
    else index in
  write (with_index index);;
  array ← read items;
  write (with_selected (js_at array index)).

(** [self.show], lines 82-100. *)
Definition show : JS () :=
  (if selectFirstMatch options then select 0
   else write (with_selected Null));;
  write (with_visible true);;
  timeout ResetScroll 0;;
  mret ().

(** [self.selectNext] and [self.selectPrior], lines 134-142: [++self.index]
    and [--self.index] store the new value before [select] is called. *)
Definition selectNext : JS () :=
  i ← read index;
  write (with_index (i + 1)%Z);;
  select (i + 1)%Z;;
  scroll.

Definition selectPrior : JS () :=
  i ← read index;
  write (with_index (i - 1)%Z);;
  select (i - 1)%Z;;
  scroll.

(** [items.data || items] of line 115: reading [data] off [null] or
    [undefined] throws; an array has no [data], an envelope's array is
    truthy even when empty. *)
Definition data_or_self (payload : Payload) : JS (list RawItem) :=
  match payload with
  | PArray array => mret array
  | PEnvelope data => mret data
  | PNull | PUndefined => throw TypeError
  end.

(** The callback given to [promise.then], lines 110-130. *)
Definition on_loaded (promise : nat) (tags : list Item) (payload : Payload)
  : JS () :=
  last ← read lastPromise;
  if bool_decide (Some promise ≠ last) then mret ()
  else
    raw ← data_or_self payload;
    let array := makeObjectArray raw (displayProperty options) in
    let array := getDifference array tags in
    (if (maxResultsToShow options =? -1)%Z
     then write (with_items array)
     else write (with_items (js_slice0 array (maxResultsToShow options))));;
    stored ← read items;
    if (0 <? Z.of_nat (length stored))%Z then show else reset.

(** The callback given to [$timeout] in [self.load], lines 104-131. *)
Definition debounced_load (query : string) (tags : list Item) : JS () :=
  write (with_query (Some query));;
  promise ← q_when tags;
  write (with_lastPromise (Some promise)).

(** [self.load], lines 102-132. *)
Definition load (query : string) (tags : list Item) : JS () :=
  old ← read debouncedLoadId;
  timeout_cancel old;;
  id ← timeout (DebouncedLoad query tags) (debounceDelay options);
  write (with_debouncedLoadId (Some id)).

(** The callback given to [$timeout] in [self.show], lines 93-98.
    [offsetHeight] is the height of the first [li] below the list element,
    [None] when there is no [li]: reading [offsetHeight] then throws. *)
Definition reset_scroll (offsetHeight : option Z) : JS () :=
  el ← read autoCompleteEl;
  if (el : bool) then
    match offsetHeight with
    | Some h => write (with_liHeight (Some h));; write (with_scrollTop 0%Z)
    | None => throw TypeError
    end
  else mret ().

End SuggestionList.

(** ** The directive's [link] function *)

(** What the handlers ask the host for: [tagsInput.getTags()] and
    [tagsInput.getCurrentTagText()] at the time of the event. *)
Record Host := MkHost {
  getTags : list Item;
  getCurrentTagText : string
}.

(** What the keydown handler did to its event and what it returned
    ([Some false] for [return false], [None] for [undefined]). *)
Record KeydownResult := MkKeydown {
  defaultPrevented : bool;
  propagationStopped : bool;
  returned : option bool
}.

#[global] Instance KeydownResult_eq_dec : EqDecision KeydownResult.
Proof. solve_decision. Defined.

Definition not_handled : KeydownResult := MkKeydown false false None.
Definition was_handled : KeydownResult := MkKeydown true true (Some false).

(** What can happen to the directive: the events of the host ([tagsInput.on],
    lines 237-294), the operations put on the scope for the template
    ([addSuggestionByIndex], [addSuggestion], and [select] through
    [scope.suggestionList]), and the turns of Angular's event loop: a timer
    fires, the promise of a fetch is resolved or rejected.  [offsetHeight] is
    what the DOM answers when the timer of [show] measures the first [li]. *)
Inductive Event :=
| TagAdded
| TagRemoved
| InvalidTag
| InputBlur
| InputChange (value : string) (host : Host)
| InputFocus (host : Host)
| InputKeydown (keyCode : Z) (host : Host)
| AddSuggestionByIndex (index : Z)
| AddSuggestion
| Select (index : Z)
| TimeoutFires (id : nat) (offsetHeight : option Z)
| PromiseResolved (promise : nat) (payload : Payload)
| PromiseRejected (promise : nat).

Section Link.
Context (options : Options) (KEYS : KeyCodes).

(** [hotkeys], line 166. *)
Definition hotkeys : list Z :=
  [KEYS_enter KEYS; KEYS_tab KEYS; KEYS_escape KEYS; KEYS_up KEYS;
   KEYS_down KEYS].

(** [shouldLoadSuggestions], lines 200-202; a string is truthy unless it is
    empty. *)
Definition shouldLoadSuggestions (value : string) : bool :=
  let nonempty := negb (String.eqb value "") in
  nonempty && (minLength options <=? Z.of_nat (String.length value))%Z
  || negb nonempty && loadOnEmpty options.

Definition host_call (c : HostCall) : JS () :=
  calls ← read host_calls;
  write (with_host_calls (calls ++ [c])).

(** [scope.addSuggestion], lines 211-222. *)
Definition addSuggestion : JS bool :=
  sel ← read selected;
  match sel with
  | Obj item =>
      host_call (AddTag item);;
      reset;;
      host_call FocusInput;;
      mret true
  | Null | Undefined => mret false
  end.

(** [scope.addSuggestionByIndex], lines 206-209. *)
Definition addSuggestionByIndex (index : Z) : JS () :=
  select index;;
  addSuggestion;;
  mret ().

(** The handler of [input-keydown], lines 255-294. *)
Definition on_input_keydown (keyCode : Z) (host : Host) : JS KeydownResult :=
  let key := keyCode in
  if bool_decide (key ∉ hotkeys) then mret not_handled
  else
    open ← read visible;
    handled ←
      (if (open : bool) then
         if (key =? KEYS_down KEYS)%Z then selectNext;; mret true
         else if (key =? KEYS_up KEYS)%Z then selectPrior;; mret true
         else if (key =? KEYS_escape KEYS)%Z then reset;; mret true
         else if (key =? KEYS_enter KEYS)%Z || (key =? KEYS_tab KEYS)%Z
              then addSuggestion
         else mret false
       else
         if (key =? KEYS_down KEYS)%Z && loadOnDownArrow options
         then load options (getCurrentTagText host) (getTags host);;
              mret true
         else mret false);
    if (handled : bool) then mret was_handled else mret not_handled.

(** The handler of [input-change], lines 241-248. *)
Definition on_input_change (value : string) (host : Host) : JS () :=
  if shouldLoadSuggestions value
  then load options value (getTags host)
  else reset.

(** The handler of [input-focus], lines 249-254. *)
Definition on_input_focus (host : Host) : JS () :=
  let value := getCurrentTagText host in
  if loadOnFocus options && shouldLoadSuggestions value
  then load options value (getTags host)
  else mret ().

(** Angular runs the callbacks of [$timeout] and of [$q] inside [try] and
    hands what they throw to [$exceptionHandler]. *)
Definition guarded (callback : JS ()) : JS () := λ s,
  match callback s with
  | Normal _ s' => Normal () s'
  | Throw e s' => Normal () (with_exceptions (exceptions s' ++ [e]) s')
  end.

(** One turn of the event loop.  A timer or a promise that is not pending
    (cancelled, settled or never created) has nothing to run. *)
Definition dispatch (ev : Event) : JS () :=
  match ev with
  | TagAdded | TagRemoved | InvalidTag | InputBlur => reset
  | InputChange value host => on_input_change value host
  | InputFocus host => on_input_focus host
  | InputKeydown keyCode host => on_input_keydown keyCode host;; mret ()
  | AddSuggestionByIndex index => addSuggestionByIndex index
  | AddSuggestion => addSuggestion;; mret ()
  | Select index => select index
  | TimeoutFires id offsetHeight =>
      pending ← read timeouts;
      match pending !! id with
      | Some (DebouncedLoad query tags, _) =>
          write (with_timeouts (delete id pending));;
          guarded (debounced_load query tags)
      | Some (ResetScroll, _) =>
          write (with_timeouts (delete id pending));;
          guarded (reset_scroll offsetHeight)
      | None => mret ()
      end
  | PromiseResolved promise payload =>
      pending ← read promises;
      match pending !! promise with
      | Some tags =>
          write (with_promises (delete promise pending));;
          guarded (on_loaded options promise tags payload)
      | None => mret ()
      end
  | PromiseRejected promise =>
      pending ← read promises;
      write (with_promises (delete promise pending))
  end.

Definition step (s : State) (ev : Event) : State := final (dispatch ev s).

Definition run (s : State) (evs : list Event) : State := foldl step s evs.

(** [new SuggestionList(scope.source, options, element)], lines 35-158.
    [self] starts as [{}] and [self.reset()] assigns all five fields before
    anything reads them, so what stands for them here is never looked at.
    [autocomplete_child] says whether a child of [element] has the class
    [autocomplete]. *)
Definition new_SuggestionList (autocomplete_child : bool) : State :=
  let el := negb (autoResize options =? -1)%Z && autocomplete_child in
  final (reset (MkState [] false 0 Undefined None None None el None 0
                        ∅ 0 ∅ 0 [] [])).

End Link.

(** ** Notions the properties are stated with *)

(** The candidate [c] is absent from [tags]: its display-field value equals
    the display-field value of no tag. *)
Definition absent_from (options : Options) (tags : list Item) (c : Item)
  : Prop :=
  Forall (λ t, getItem options c ≠ getItem options t) tags.

#[global] Instance absent_from_dec options tags c
  : Decision (absent_from options tags c).
Proof. unfold absent_from. apply _. Defined.

(** The difference as the specification words it: the candidates absent from
    the tags, in the order of the candidates. *)
Definition difference_by_display (options : Options)
  (candidates tags : list Item) : list Item :=
  filter (absent_from options tags) candidates.

(** The array a fetch delivered, when it delivered one. *)
Definition payload_array (payload : Payload) : option (list RawItem) :=
  match payload with
  | PArray array => Some array
  | PEnvelope data => Some data
  | PNull | PUndefined => None
  end.

(** The candidates of a fetch after normalisation and difference. *)
Definition post_difference (options : Options) (raw : list RawItem)
  (tags : list Item) : list Item :=
  getDifference options (makeObjectArray raw (displayProperty options)) tags.

(** The set a resolution stores: the difference, cut at [maxResultsToShow]
    unless that is [-1] (lines 116-122). *)
Definition stored_items (options : Options) (raw : list RawItem)
  (tags : list Item) : list Item :=
  let array := post_difference options raw tags in
  if (maxResultsToShow options =? -1)%Z then array
  else js_slice0 array (maxResultsToShow options).

(** The three ways to move the cursor. *)
Inductive Navigation :=
| GoNext
| GoPrior
| GoTo (index : Z).

Definition navigate (n : Navigation) : JS () :=
  match n with
  | GoNext => selectNext
  | GoPrior => selectPrior
  | GoTo index => select index
  end.

(** The closed state: what [reset] leaves in the fields of [self]. *)
Definition closed_fields : list Item * bool * Z * Ref Item * option string :=
  ([], false, (-1)%Z, Null, None).

(** The fields a stale resolution must not touch. *)
Definition shown_fields (s : State) : list Item * bool * Z * Ref Item :=
  (items s, visible s, index s, selected s).

(** The cursor points into the set. *)
Definition cursor_in_range (s : State) : Prop :=
  (0 ≤ index s < Z.of_nat (length (items s)))%Z.

#[global] Instance cursor_in_range_dec s : Decision (cursor_in_range s).
Proof. unfold cursor_in_range. apply _. Defined.

(** A debounced load is pending under the timer [id]. *)
Definition load_pending (s : State) (id : nat) : Prop :=
  ∃ query tags delay, timeouts s !! id = Some (DebouncedLoad query tags, delay).

(** The list is visible only over a non-empty set. *)
Definition shown_nonempty (s : State) : Prop :=
  visible s = true → items s ≠ [].

(** The current load token, when there is one, is the promise of the fetch
    issued last. *)
Definition token_is_latest (s : State) : Prop :=
  ∀ promise, lastPromise s = Some promise → S promise = next_promise s.

(** The only debounced load that can be pending is the one [debouncedLoadId]
    names. *)
Definition one_load_timer (s : State) : Prop :=
  ∀ id, load_pending s id → debouncedLoadId s = Some id.

(** No debounced load is pending under a timer created before the [n]-th. *)
Definition no_load_before (n : nat) (s : State) : Prop :=
  n ≤ next_timeout s ∧ ∀ id, id < n → ¬ load_pending s id.

(** The cursor invariant together with the one it rests on. *)
Definition cursor_valid (s : State) : Prop :=
  shown_nonempty s ∧ (visible s = true → cursor_in_range s).

(** ** A concrete setting for examples *)

(** The default options over the display property [text]. *)
Definition text_options : Options := default_options "text".

(** The same with [maxResultsToShow] set to [n]. *)
Definition options_showing (n : Z) : Options :=
  MkOptions 100 3 true n false false false true (-1) "text".

(** The defaults with [selectFirstMatch] switched off. *)
Definition options_no_first_match : Options :=
  MkOptions 100 3 true 10 false false false false (-1) "text".

(** The candidate [{text: s}]. *)
Definition tag_of (s : string) : Item := {[ "text"%string := s ]}.

(** A host with the given tags and typed text. *)
Definition host_with (tags : list string) (text : string) : Host :=
  MkHost (tag_of <$> tags) text.

(** The usual key codes of a browser. *)
Definition dom_keys : KeyCodes := MkKeys 13 9 27 38 40.

(** A list opened over the three candidates a fetch for [abc] delivered. *)
Definition opened_events : list Event :=
  [InputChange "abc" (host_with [] "abc"); TimeoutFires 0 None;
   PromiseResolved 0 (PArray (RawString <$> ["abcx"; "abcy"; "abcz"]%string))].


(** ** The turns of the event loop as a relation *)

(** What one turn of the event loop can do to the state, with what the
    handler established before it called the operation: a load is issued for
    a text that passed [shouldLoadSuggestions], or by the down arrow on a
    closed list; a commit works on the state as it is or right after a
    [select]; a callback runs for a timer or a promise that was pending. *)
Inductive transition (options : Options) : State → State → Prop :=
| t_stay s :
    transition options s s
| t_reset s :
    transition options s (final (reset s))
| t_load s q tags :
    shouldLoadSuggestions options q = true
    ∨ (loadOnDownArrow options = true ∧ visible s = false) →
    transition options s (final (load options q tags s))
| t_navigate s n :
    transition options s (final (navigate n s))
| t_commit s s1 :
    s1 = s ∨ (∃ i, s1 = final (select i s)) →
    transition options s (final (addSuggestion s1))
| t_fire_load s id q tags delay :
    timeouts s !! id = Some (DebouncedLoad q tags, delay) →
    transition options s
      (final (debounced_load q tags
                (with_timeouts (delete id (timeouts s)) s)))
| t_fire_scroll s id delay offsetHeight :
    timeouts s !! id = Some (ResetScroll, delay) →
    transition options s
      (final (guarded (reset_scroll offsetHeight)
                (with_timeouts (delete id (timeouts s)) s)))
| t_resolved s promise tags payload :
    promises s !! promise = Some tags →
    transition options s
      (final (guarded (on_loaded options promise tags payload)
                (with_promises (delete promise (promises s)) s)))
| t_rejected s promise :
    transition options s (with_promises (delete promise (promises s)) s).

(** ** Notions of the further properties *)

(** The selection, when it is a candidate, is the one under the cursor. *)
Definition selection_at_cursor (s : State) : Prop :=
  ∀ c, selected s = Obj c →
       (0 ≤ index s)%Z ∧ items s !! Z.to_nat (index s) = Some c.

(** Every text a fetch is or was asked for passed [shouldLoadSuggestions],
    and every pending load waits for the configured delay. *)
Definition queries_qualify (options : Options) (s : State) : Prop :=
  (∀ id q tags delay,
     timeouts s !! id = Some (DebouncedLoad q tags, delay) →
     shouldLoadSuggestions options q = true ∧ delay = debounceDelay options)
  ∧ (∀ q, query s = Some q → shouldLoadSuggestions options q = true).

(** The directive has no list element to scroll and never measured one. *)
Definition no_scrolling (s : State) : Prop :=
  autoCompleteEl s = false ∧ liHeight s = None ∧ scrollTop s = 0%Z.

(** [n] presses of the down and of the up arrow on the list itself. *)
Definition next_times (n : nat) (s : State) : State :=
  Nat.iter n (λ t, final (selectNext t)) s.

Definition prior_times (n : nat) (s : State) : State :=
  Nat.iter n (λ t, final (selectPrior t)) s.

(** Options with a list element that resizes: [autoResize] is [0]. *)
Definition options_resizing : Options :=
  MkOptions 100 3 true 10 false false false true 0 "text".

(** The defaults with [loadOnDownArrow] switched on. *)
Definition options_down_arrow : Options :=
  MkOptions 100 3 true 10 true false false true (-1) "text".
(** ** Evaluating the monad *)

Ltac js_unfold :=
  unfold mbind, JS_bind, mret, JS_ret, read, write, throw.

Ltac js_simpl := js_unfold; simpl.

Lemma with_promises_same s : with_promises (promises s) s = s.
Proof. by destruct s. Qed.

Lemma with_timeouts_same s : with_timeouts (timeouts s) s = s.
Proof. by destruct s. Qed.

(** ** getDifference *)

Lemma findInObjectArray_truthy array obj key :
  truthy (findInObjectArray array obj key) = true
  ↔ Exists (λ t, t !! key = obj !! key) array.
Proof.
  induction array as [|x rest IH]; simpl.
  - split; [done | by intros ?%Exists_nil].
  - case_bool_decide as Hx; simpl.
    + split; [by left | done].
    + rewrite IH, Exists_cons. split; [by right | by intros [?|?]].
Qed.

Lemma getDifference_keeps options tags c :
  negb (truthy (findInObjectArray tags c (displayProperty options))) = true
  ↔ absent_from options tags c.
Proof.
  unfold absent_from, getItem.
  rewrite negb_true_iff, <- not_true_iff_false, findInObjectArray_truthy.
  rewrite <- Forall_Exists_neg.
  apply Forall_proper; [|done]. intros t. split; congruence.
Qed.

Lemma getDifference_filter options candidates tags :
  getDifference options candidates tags
  = difference_by_display options candidates tags.
Proof.
  unfold getDifference, difference_by_display.
  induction candidates as [|c rest IH]; [done|].
  simpl. rewrite filter_cons, IH.
  destruct (negb _) eqn:Hc.
  - apply getDifference_keeps in Hc. by rewrite decide_True.
  - rewrite decide_False; [done|].
    intros Habs%getDifference_keeps. congruence.
Qed.

(** C2. [getDifference(candidates, tags)] holds exactly the candidates whose
    display-field value equals the display-field value of no tag (it is the
    filter of [candidates] by that test, so multiplicities are kept), and it
    is a subsequence of [candidates]: the relative order is that of the
    input. *)
Theorem C2_getDifference_exact_and_ordered options (candidates tags : list Item) :
  getDifference options candidates tags
  = difference_by_display options candidates tags
  ∧ sublist (getDifference options candidates tags) candidates
  ∧ ∀ c, c ∈ getDifference options candidates tags
         ↔ c ∈ candidates
           ∧ ∀ t, t ∈ tags → getItem options c ≠ getItem options t.
Proof.
  rewrite getDifference_filter. unfold difference_by_display.
  split_and!; [done | apply sublist_filter |].
  intros c. rewrite list_elem_of_filter. unfold absent_from.
  rewrite Forall_forall. tauto.
Qed.

(** ** Navigation *)

Lemma select_eq index s :
  select index s
  = let len := Z.of_nat (length (items s)) in
    let index' :=
      if (index <? 0)%Z then (len - 1)%Z
      else if (index >=? len)%Z then 0%Z else index in
    Normal () (with_selected (js_at (items s) index') (with_index index' s)).
Proof. reflexivity. Qed.

Lemma scroll_eq s : ∃ top, scroll s = Normal () (with_scrollTop top s).
Proof.
  unfold scroll. js_simpl. destruct s as [? ? ? ? ? ? ? el [h|] top ? ? ? ? ? ?];
    simpl; [|by exists top].
  destruct (el && negb (h =? 0)%Z); simpl; eauto.
Qed.

Lemma selectNext_eq s :
  ∃ top, selectNext s
         = Normal () (with_scrollTop top
                        (final (select (index s + 1) (with_index (index s + 1) s)))).
Proof.
  unfold selectNext. js_unfold. rewrite select_eq. cbv zeta.
  edestruct scroll_eq as [top ->]. by exists top.
Qed.

Lemma selectPrior_eq s :
  ∃ top, selectPrior s
         = Normal () (with_scrollTop top
                        (final (select (index s - 1) (with_index (index s - 1) s)))).
Proof.
  unfold selectPrior. js_unfold. rewrite select_eq. cbv zeta.
  edestruct scroll_eq as [top ->]. by exists top.
Qed.

(** Every navigation is a [select] at some index, up to the scroll offset. *)
Lemma navigate_eq n s :
  ∃ i top keep,
    navigate n s
    = Normal () (with_scrollTop top (final (select i (with_index keep s)))).
Proof.
  destruct n as [| |i]; simpl.
  - destruct (selectNext_eq s) as [top ->]. eauto.
  - destruct (selectPrior_eq s) as [top ->]. eauto.
  - exists i, (scrollTop s), (index s). rewrite !select_eq. by destruct s.
Qed.

Lemma js_at_in_range {A} (array : list A) i :
  (0 ≤ i < Z.of_nat (length array))%Z →
  ∃ x, array !! Z.to_nat i = Some x ∧ js_at array i = Obj x.
Proof.
  intros Hi. unfold js_at.
  destruct (Z.ltb_spec i 0); [lia|].
  destruct (lookup_lt_is_Some_2 array (Z.to_nat i)) as [x Hx]; [lia|].
  exists x. by rewrite Hx.
Qed.

Lemma select_in_range i s :
  items s ≠ [] →
  let s' := final (select i s) in
  items s' = items s ∧ visible s' = visible s ∧ cursor_in_range s'
  ∧ ∃ c, items s' !! Z.to_nat (index s') = Some c ∧ selected s' = Obj c.
Proof.
  intros Hne. rewrite select_eq. simpl.
  assert (0 < Z.of_nat (length (items s)))%Z as HL.
  { destruct (items s); simpl; [done | lia]. }
  set (i' := if (i <? 0)%Z then _ else _).
  assert (0 ≤ i' < Z.of_nat (length (items s)))%Z as Hi'.
  { subst i'. destruct (Z.ltb_spec i 0); [lia|].
    destruct (Z.geb_spec i (Z.of_nat (length (items s)))); lia. }
  unfold cursor_in_range. simpl. split_and!; [done | done | lia | lia |].
  by apply js_at_in_range.
Qed.

(** C5. On a set of length [L > 0]: [selectNext] from [L - 1] puts the cursor
    at [0], [selectPrior] from [0] puts it at [L - 1], [select] sends an index
    below [0] to [L - 1] and an index of [L] or more to [0]; each of the three
    leaves the set as it is, the cursor inside it, and the selection at the
    candidate under the cursor.  None of them throws, on an empty set either,
    where the selection reads [undefined]. *)
Theorem C5_navigation_wraps (s : State) :
  let L := Z.of_nat (length (items s)) in
  ((0 < L)%Z →
     (index s = (L - 1)%Z → index (final (selectNext s)) = 0%Z)
     ∧ (index s = 0%Z → index (final (selectPrior s)) = (L - 1)%Z)
     ∧ (∀ i, (i < 0)%Z → index (final (select i s)) = (L - 1)%Z)
     ∧ (∀ i, (L ≤ i)%Z → index (final (select i s)) = 0%Z)
     ∧ (∀ n, let s' := final (navigate n s) in
             items s' = items s ∧ cursor_in_range s'
             ∧ ∃ c, items s' !! Z.to_nat (index s') = Some c
                    ∧ selected s' = Obj c))
  ∧ (∀ n, completes (navigate n s) = true)
  ∧ (L = 0%Z →
     ∀ n, selected (final (navigate n s)) = Undefined
          ∧ items (final (navigate n s)) = []).
Proof.
  intros L. split_and!.
  - intros HL. split_and!.
    + intros Hi. destruct (selectNext_eq s) as [top ->]. rewrite select_eq.
      simpl. fold L. destruct (Z.ltb_spec (index s + 1) 0); [lia|].
      destruct (Z.geb_spec (index s + 1) L); [done | lia].
    + intros Hi. destruct (selectPrior_eq s) as [top ->]. rewrite select_eq.
      simpl. fold L. destruct (Z.ltb_spec (index s - 1) 0); [done | lia].
    + intros i Hi. rewrite select_eq. simpl. fold L.
      destruct (Z.ltb_spec i 0); [done | lia].
    + intros i Hi. rewrite select_eq. simpl. fold L.
      destruct (Z.ltb_spec i 0); [lia|].
      destruct (Z.geb_spec i L); [done | lia].
    + intros n. destruct (navigate_eq n s) as (i & top & keep & ->).
      assert (items s ≠ []) as Hne.
      { intros Hnil. subst L. rewrite Hnil in HL. simpl in HL. lia. }
      destruct (select_in_range i (with_index keep s) Hne)
        as (Hitems & _ & Hcur & Hsel).
      simpl. unfold cursor_in_range in *. by simpl.
  - intros n. by destruct (navigate_eq n s) as (i & top & keep & ->).
  - intros HL n. destruct (navigate_eq n s) as (i & top & keep & ->).
    assert (items s = []) as Hnil.
    { subst L. destruct (items s); simpl in *; [done | lia]. }
    rewrite select_eq. simpl. rewrite Hnil. simpl. split; [|done].
    unfold js_at. by repeat case_match.
Qed.

Lemma C5_navigation_wraps_witness :
  let opened := run text_options dom_keys
                  (new_SuggestionList text_options false) opened_events in
  let at_last := run text_options dom_keys opened
                   [InputKeydown 40 (host_with [] "abc");
                    InputKeydown 40 (host_with [] "abc")] in
  index at_last = 2%Z
  ∧ index (final (selectNext at_last)) = 0%Z
  ∧ index (final (selectPrior opened)) = 2%Z
  ∧ index (final (select (-4) opened)) = 2%Z
  ∧ index (final (select 3 opened)) = 0%Z
  ∧ selected (final (navigate GoPrior
                       (new_SuggestionList text_options false))) = Undefined.
Proof.
  intros opened at_last.
  destruct (C5_navigation_wraps at_last) as [Hlast _].
  destruct (C5_navigation_wraps opened) as [Hopened _].
  destruct (C5_navigation_wraps (new_SuggestionList text_options false))
    as (_ & _ & Hempty).
  destruct Hlast as (Hnext & _); [compute_done|].
  destruct Hopened as (_ & Hprior & Hbelow & Habove & _); [compute_done|].
  split; [compute_done|]. split; [apply Hnext; compute_done|].
  split; [apply Hprior; compute_done|].
  split; [apply Hbelow; lia|]. split; [apply Habove; compute_done|].
  apply Hempty. compute_done.
Defined.

(** ** reset *)

Lemma timeout_cancel_eq promise s :
  ∃ b, timeout_cancel promise s
       = Normal b (with_timeouts
                     (from_option (λ id, delete id (timeouts s)) (timeouts s)
                        promise) s).
Proof.
  unfold timeout_cancel. js_simpl. destruct promise as [id|]; simpl.
  - case_bool_decide as Hid; simpl; [by exists true|].
    exists false. rewrite delete_id; [by rewrite with_timeouts_same|].
    by apply eq_None_not_Some.
  - exists false. by rewrite with_timeouts_same.
Qed.

(** What [reset] leaves: the closed fields, no current promise, and the timer
    of the last [load] cancelled. *)
Lemma reset_eq s :
  reset s
  = Normal ()
      (MkState [] false (-1) Null None (debouncedLoadId s) None
         (autoCompleteEl s) (liHeight s) (scrollTop s)
         (from_option (λ id, delete id (timeouts s)) (timeouts s)
            (debouncedLoadId s))
         (next_timeout s) (promises s) (next_promise s) (host_calls s)
         (exceptions s)).
Proof.
  unfold reset. js_unfold. simpl.
  edestruct timeout_cancel_eq as [b ->]. reflexivity.
Qed.

(** ** The keydown handler *)

Lemma hotkeys_commit_key KEYS key :
  NoDup (hotkeys KEYS) →
  key ∈ [KEYS_enter KEYS; KEYS_tab KEYS] →
  key ∈ hotkeys KEYS
  ∧ key ≠ KEYS_down KEYS ∧ key ≠ KEYS_up KEYS ∧ key ≠ KEYS_escape KEYS.
Proof.
  unfold hotkeys. intros Hnd Hkey.
  repeat match goal with
         | H : NoDup (_ :: _) |- _ => apply NoDup_cons in H as [? H]
         end.
  set_unfold. intuition congruence.
Qed.

(** The handler on a commit key while the list is open: it is
    [scope.addSuggestion] that decides whether the event was handled. *)
Lemma keydown_commit_key options KEYS key host s :
  NoDup (hotkeys KEYS) →
  key ∈ [KEYS_enter KEYS; KEYS_tab KEYS] →
  visible s = true →
  on_input_keydown options KEYS key host s
  = match addSuggestion s with
    | Normal true s' => Normal was_handled s'
    | Normal false s' => Normal not_handled s'
    | Throw e s' => Throw e s'
    end.
Proof.
  intros Hnd Hkey Hopen.
  destruct (hotkeys_commit_key KEYS key Hnd Hkey) as (Hhot & Hd & Hu & He).
  unfold on_input_keydown. rewrite bool_decide_false by (by intros []).
  js_unfold. rewrite Hopen.
  rewrite (proj2 (Z.eqb_neq _ _) Hd), (proj2 (Z.eqb_neq _ _) Hu),
    (proj2 (Z.eqb_neq _ _) He).
  assert ((key =? KEYS_enter KEYS)%Z || (key =? KEYS_tab KEYS)%Z = true) as ->.
  { set_unfold. destruct Hkey as [->|[->|[]]]; rewrite Z.eqb_refl;
      [done | by rewrite orb_true_r]. }
  destruct (addSuggestion s) as [[] s'|e s']; done.
Qed.

(** C9. While the list is visible and a candidate is selected, a keydown of
    enter or tab adds the selected candidate as a tag on the host, resets the
    list to the closed state, focuses the input (in this order, and nothing
    else is asked of the host), [scope.addSuggestion] returns [true], and the
    handler calls [preventDefault] and [stopImmediatePropagation] on the event
    and returns [false]. *)
Theorem C9_commit_key_adds_selected_tag options KEYS key host item s :
  NoDup (hotkeys KEYS) →
  key ∈ [KEYS_enter KEYS; KEYS_tab KEYS] →
  visible s = true →
  selected s = Obj item →
  ∃ s',
    on_input_keydown options KEYS key host s
    = Normal (MkKeydown true true (Some false)) s'
    ∧ addSuggestion s = Normal true s'
    ∧ host_calls s' = host_calls s ++ [AddTag item; FocusInput]
    ∧ self_fields s' = closed_fields
    ∧ lastPromise s' = None
    ∧ (∀ id, debouncedLoadId s = Some id → timeouts s' !! id = None).
Proof.
  intros Hnd Hkey Hopen Hsel.
  rewrite (keydown_commit_key options KEYS key host s Hnd Hkey Hopen).
  unfold addSuggestion, host_call. js_unfold. rewrite Hsel.
  rewrite reset_eq. simpl. eexists. split_and!; try reflexivity.
  - by rewrite <- app_assoc.
  - intros id ->. simpl. apply lookup_delete_eq.
Qed.

Lemma C9_commit_key_adds_selected_tag_witness :
  let opened := run text_options dom_keys
                  (new_SuggestionList text_options false) opened_events in
  ∃ s',
    on_input_keydown text_options dom_keys 13 (host_with [] "abc") opened
    = Normal (MkKeydown true true (Some false)) s'
    ∧ addSuggestion opened = Normal true s'
    ∧ host_calls s' = host_calls opened ++ [AddTag (tag_of "abcx"); FocusInput]
    ∧ self_fields s' = closed_fields
    ∧ lastPromise s' = None
    ∧ (∀ id, debouncedLoadId opened = Some id → timeouts s' !! id = None).
Proof.
  intros opened.
  apply (C9_commit_key_adds_selected_tag text_options dom_keys 13
           (host_with [] "abc") (tag_of "abcx") opened).
  - apply (bool_decide_unpack _). compute_done.
  - apply (bool_decide_unpack _). compute_done.
  - compute_done.
  - compute_done.
Defined.

(** C10. While the list is visible and nothing is selected ([null] or
    [undefined]), a keydown of enter or tab changes nothing at all, so no
    field of the list and no tag of the host; [scope.addSuggestion] returns
    [false]; the handler calls neither [preventDefault] nor
    [stopImmediatePropagation] and returns [undefined]. *)
Theorem C10_commit_key_without_selection options KEYS key host s :
  NoDup (hotkeys KEYS) →
  key ∈ [KEYS_enter KEYS; KEYS_tab KEYS] →
  visible s = true →
  truthy (selected s) = false →
  on_input_keydown options KEYS key host s
  = Normal (MkKeydown false false None) s
  ∧ addSuggestion s = Normal false s
  ∧ step options KEYS s (InputKeydown key host) = s.
Proof.
  intros Hnd Hkey Hopen Hsel.
  assert (addSuggestion s = Normal false s) as Hadd.
  { unfold addSuggestion. js_unfold. by destruct (selected s). }
  assert (on_input_keydown options KEYS key host s = Normal not_handled s)
    as Hkeydown.
  { rewrite (keydown_commit_key options KEYS key host s Hnd Hkey Hopen).
    by rewrite Hadd. }
  split_and!; [done | done |].
  unfold step, dispatch. js_unfold. by rewrite Hkeydown.
Qed.

Lemma C10_commit_key_without_selection_witness :
  let opened := run options_no_first_match dom_keys
                  (new_SuggestionList options_no_first_match false)
                  opened_events in
  visible opened = true
  ∧ selected opened = Null
  ∧ on_input_keydown options_no_first_match dom_keys 9 (host_with [] "abc")
      opened
    = Normal (MkKeydown false false None) opened
  ∧ addSuggestion opened = Normal false opened
  ∧ step options_no_first_match dom_keys opened
      (InputKeydown 9 (host_with [] "abc")) = opened.
Proof.
  intros opened. split; [compute_done|]. split; [compute_done|].
  apply (C10_commit_key_without_selection options_no_first_match dom_keys 9
           (host_with [] "abc") opened).
  - apply (bool_decide_unpack _). compute_done.
  - apply (bool_decide_unpack _). compute_done.
  - compute_done.
  - compute_done.
Defined.

(** ** The methods in closed form *)

Lemma load_eq options q tags s :
  load options q tags s
  = Normal ()
      (MkState (items s) (visible s) (index s) (selected s) (query s)
         (Some (next_timeout s)) (lastPromise s) (autoCompleteEl s)
         (liHeight s) (scrollTop s)
         (<[next_timeout s := (DebouncedLoad q tags, debounceDelay options)]>
            (from_option (λ id, delete id (timeouts s)) (timeouts s)
               (debouncedLoadId s)))
         (S (next_timeout s)) (promises s) (next_promise s) (host_calls s)
         (exceptions s)).
Proof.
  unfold load. js_unfold.
  edestruct timeout_cancel_eq as [b ->]. reflexivity.
Qed.

Lemma show_eq options s :
  show options s
  = let s1 := if selectFirstMatch options then final (select 0 s)
              else with_selected Null s in
    Normal ()
      (with_next_timeout (S (next_timeout s))
         (with_timeouts (<[next_timeout s := (ResetScroll, 0%Z)]> (timeouts s))
            (with_visible true s1))).
Proof. unfold show. js_unfold. by destruct (selectFirstMatch options). Qed.

Lemma debounced_load_eq q tags s :
  debounced_load q tags s
  = Normal ()
      (with_lastPromise (Some (next_promise s))
         (with_next_promise (S (next_promise s))
            (with_promises (<[next_promise s := tags]> (promises s))
               (with_query (Some q) s)))).
Proof. reflexivity. Qed.

Lemma on_loaded_eq options promise tags payload s :
  on_loaded options promise tags payload s
  = if bool_decide (Some promise ≠ lastPromise s) then Normal () s
    else match payload_array payload with
         | None => Throw TypeError s
         | Some raw =>
             let s1 := with_items (stored_items options raw tags) s in
             if (0 <? Z.of_nat (length (items s1)))%Z then show options s1
             else reset s1
         end.
Proof.
  unfold on_loaded. js_unfold. case_bool_decide; [done|].
  destruct payload; simpl; try done;
    unfold stored_items, post_difference;
    destruct (maxResultsToShow options =? -1)%Z; simpl;
    by destruct (0 <? _)%Z.
Qed.

(** The four ways the callback of a fetch can end. *)
Lemma on_loaded_cases options promise tags payload s :
  let s' := final (guarded (on_loaded options promise tags payload) s) in
  (Some promise ≠ lastPromise s ∧ s' = s)
  ∨ (lastPromise s = Some promise ∧ payload_array payload = None
     ∧ s' = with_exceptions (exceptions s ++ [TypeError]) s)
  ∨ (∃ raw, lastPromise s = Some promise ∧ payload_array payload = Some raw
            ∧ stored_items options raw tags ≠ []
            ∧ s' = final (show options
                            (with_items (stored_items options raw tags) s)))
  ∨ (∃ raw, lastPromise s = Some promise ∧ payload_array payload = Some raw
            ∧ stored_items options raw tags = []
            ∧ s' = final (reset (with_items [] s))).
Proof.
  unfold guarded. rewrite on_loaded_eq. case_bool_decide as Hlast.
  { by left. }
  symmetry in Hlast. right.
  destruct (payload_array payload) as [raw|]; [right | by left].
  cbv zeta. simpl. destruct (stored_items options raw tags) as [|c rest] eqn:Hs.
  - right. exists raw. simpl. rewrite reset_eq. by split_and!.
  - left. exists raw. rewrite Hs.
    replace (0 <? Z.of_nat (length (c :: rest)))%Z with true
      by (symmetry; apply Z.ltb_lt; simpl; lia).
    rewrite show_eq. by split_and!.
Qed.

Lemma addSuggestion_eq s :
  addSuggestion s
  = match selected s with
    | Obj item =>
        let s1 := with_host_calls (host_calls s ++ [AddTag item]) s in
        let s2 := final (reset s1) in
        Normal true (with_host_calls (host_calls s2 ++ [FocusInput]) s2)
    | Null | Undefined => Normal false s
    end.
Proof.
  unfold addSuggestion, host_call. js_unfold.
  destruct (selected s) as [| |item]; simpl; try done.
  by rewrite reset_eq.
Qed.

(** ** Properties kept by every turn of the event loop *)

Section Steps.
Context (options : Options) (KEYS : KeyCodes) (P : State → Prop).

Hypothesis P_reset : ∀ s, P s → P (final (reset s)).
Hypothesis P_load : ∀ s q tags, P s → P (final (load options q tags s)).
Hypothesis P_navigate : ∀ s n, P s → P (final (navigate n s)).
Hypothesis P_host_call :
  ∀ s c, P s → P (with_host_calls (host_calls s ++ [c]) s).
Hypothesis P_timer_gone :
  ∀ s id, P s → P (with_timeouts (delete id (timeouts s)) s).
Hypothesis P_promise_gone :
  ∀ s promise, P s → P (with_promises (delete promise (promises s)) s).
Hypothesis P_debounced_load :
  ∀ s q tags, P s → P (final (debounced_load q tags s)).
Hypothesis P_reset_scroll :
  ∀ s h, P s → P (final (guarded (reset_scroll h) s)).
Hypothesis P_on_loaded :
  ∀ s promise tags payload,
    P s → P (final (guarded (on_loaded options promise tags payload) s)).

Lemma addSuggestion_preserves s : P s → P (final (addSuggestion s)).
Proof.
  intros HP. rewrite addSuggestion_eq.
  destruct (selected s) as [| |item]; simpl; try done.
  apply (P_host_call _ FocusInput). apply P_reset.
  by apply (P_host_call s (AddTag item)).
Qed.

Lemma step_preserves s ev : P s → P (step options KEYS s ev).
Proof.
  intros HP. unfold step.
  destruct ev as [| | | |value host|host|key host|i| |i|id h|promise payload
                 |promise]; simpl; try by apply P_reset.
  - unfold on_input_change.
    destruct (shouldLoadSuggestions _ _); [apply P_load | apply P_reset]; done.
  - unfold on_input_focus. destruct (_ && _); [by apply P_load | done].
  - js_unfold. unfold on_input_keydown. case_bool_decide; [done|].
    js_unfold. destruct (visible s) eqn:Hopen.
    + destruct (key =? KEYS_down KEYS)%Z.
      { pose proof (P_navigate s GoNext HP) as Hn. simpl in Hn.
        by destruct (selectNext s). }
      destruct (key =? KEYS_up KEYS)%Z.
      { pose proof (P_navigate s GoPrior HP) as Hn. simpl in Hn.
        by destruct (selectPrior s). }
      destruct (key =? KEYS_escape KEYS)%Z.
      { pose proof (P_reset s HP) as Hn. by destruct (reset s). }
      destruct (_ || _); [|done].
      pose proof (addSuggestion_preserves s HP) as Hn.
      by destruct (addSuggestion s) as [[] ?|].
    + destruct (_ && _); [|done].
      pose proof (P_load s (getCurrentTagText host) (getTags host) HP) as Hn.
      by destruct (load _ _ _ s).
  - unfold addSuggestionByIndex. js_unfold.
    pose proof (P_navigate s (GoTo i) HP) as Hn. simpl in Hn.
    rewrite select_eq in *. cbv beta iota zeta in *. simpl in Hn.
    apply addSuggestion_preserves in Hn.
    by destruct (addSuggestion _).
  - js_unfold. pose proof (addSuggestion_preserves s HP) as Hn.
    by destruct (addSuggestion s).
  - apply (P_navigate s (GoTo i) HP).
  - js_unfold. cbv beta iota.
    destruct (timeouts s !! id) as [[[q tags|] d]|]; cbv beta iota.
    + change (guarded (debounced_load q tags) ?s')
        with (debounced_load q tags s').
      apply P_debounced_load. by apply P_timer_gone.
    + apply P_reset_scroll. by apply P_timer_gone.
    + done.
  - js_unfold. cbv beta iota.
    destruct (promises s !! promise) as [tags|]; cbv beta iota.
    + apply P_on_loaded. by apply P_promise_gone.
    + done.
  - by apply P_promise_gone.
Qed.

Lemma run_preserves evs : ∀ s, P s → P (run options KEYS s evs).
Proof.
  induction evs as [|ev evs IH]; intros s HP; [done|].
  simpl. apply IH. by apply step_preserves.
Qed.

End Steps.

Lemma reset_scroll_cases offsetHeight s :
  let s' := final (guarded (reset_scroll offsetHeight) s) in
  s' = s
  ∨ (∃ h, s' = with_scrollTop 0 (with_liHeight (Some h) s))
  ∨ s' = with_exceptions (exceptions s ++ [TypeError]) s.
Proof.
  unfold guarded, reset_scroll. js_unfold.
  destruct (autoCompleteEl s); [|by left].
  destruct offsetHeight as [h|]; simpl; [|by right; right].
  right. left. by exists h.
Qed.

(** ** The list is visible only over a non-empty set *)

Lemma select_keeps_shown i keep s :
  let s' := final (select i (with_index keep s)) in
  items s' = items s ∧ visible s' = visible s.
Proof. by rewrite select_eq. Qed.


(** ** The load token names the fetch issued last *)

Lemma token_is_latest_step options KEYS s ev :
  token_is_latest s → token_is_latest (step options KEYS s ev).
Proof.
  apply step_preserves; clear s ev; unfold token_is_latest.
  - intros s _ p. by rewrite reset_eq.
  - intros s q tags Hs p. rewrite load_eq. apply Hs.
  - intros s n Hs p. destruct (navigate_eq n s) as (i & top & keep & ->).
    rewrite select_eq. apply Hs.
  - done.
  - done.
  - done.
  - intros s q tags _ p. rewrite debounced_load_eq. simpl. congruence.
  - intros s h Hs p.
    destruct (reset_scroll_cases h s) as [->|[[h' ->]| ->]]; apply Hs.
  - intros s promise tags payload Hs p.
    destruct (on_loaded_cases options promise tags payload s)
      as [[_ ->]|[(_ & _ & ->)|[(raw & _ & _ & _ & ->)|(raw & _ & _ & _ & ->)]]];
      [apply Hs | apply Hs | | by rewrite reset_eq].
    rewrite show_eq. simpl.
    destruct (selectFirstMatch options); apply Hs.
Qed.

(** ** Debounce timers *)

Lemma load_pending_after_reset s id :
  load_pending (final (reset s)) id →
  load_pending s id ∧ debouncedLoadId s ≠ Some id.
Proof.
  rewrite reset_eq. unfold load_pending. simpl.
  intros (q & tags & delay & Hid).
  destruct (debouncedLoadId s) as [d|]; simpl in Hid.
  - apply lookup_delete_Some in Hid as [Hne Hid].
    split; [eauto | congruence].
  - split; [eauto | done].
Qed.

Lemma load_pending_after_load options q tags s id :
  load_pending (final (load options q tags s)) id →
  id = next_timeout s ∨ (load_pending s id ∧ debouncedLoadId s ≠ Some id).
Proof.
  rewrite load_eq. unfold load_pending. simpl.
  intros (q' & tags' & delay & Hid).
  apply lookup_insert_Some in Hid as [[-> _]|[_ Hid]]; [by left | right].
  destruct (debouncedLoadId s) as [d|]; simpl in Hid.
  - apply lookup_delete_Some in Hid as [Hne Hid].
    split; [eauto | congruence].
  - split; [eauto | done].
Qed.

Lemma show_timers options s :
  let s' := final (show options s) in
  timeouts s' = <[next_timeout s := (ResetScroll, 0%Z)]> (timeouts s)
  ∧ next_timeout s' = S (next_timeout s)
  ∧ debouncedLoadId s' = debouncedLoadId s
  ∧ lastPromise s' = lastPromise s.
Proof. rewrite show_eq. by destruct (selectFirstMatch options). Qed.

Lemma load_pending_after_show options s id :
  load_pending (final (show options s)) id → load_pending s id.
Proof.
  destruct (show_timers options s) as (Ht & _). unfold load_pending.
  rewrite Ht. intros (q & tags & delay & Hid).
  apply lookup_insert_Some in Hid as [[_ [=]]|[_ Hid]]. eauto.
Qed.

Lemma load_pending_after_timer_gone s gone id :
  load_pending (with_timeouts (delete gone (timeouts s)) s) id →
  load_pending s id.
Proof.
  unfold load_pending. simpl. intros (q & tags & delay & Hid).
  apply lookup_delete_Some in Hid as [_ Hid]. eauto.
Qed.

Lemma one_load_timer_step options KEYS s ev :
  one_load_timer s → one_load_timer (step options KEYS s ev).
Proof.
  apply step_preserves; clear s ev; unfold one_load_timer.
  - intros s Hs id [Hid Hne]%load_pending_after_reset.
    by apply Hs in Hid.
  - intros s q tags Hs id [->|[Hid Hne]]%load_pending_after_load.
    + by rewrite load_eq.
    + by apply Hs in Hid.
  - intros s n Hs id. destruct (navigate_eq n s) as (i & top & keep & ->).
    rewrite select_eq. apply Hs.
  - done.
  - intros s gone Hs id Hid%load_pending_after_timer_gone. by apply Hs.
  - done.
  - done.
  - intros s h Hs id.
    destruct (reset_scroll_cases h s) as [->|[[h' ->]| ->]]; apply Hs.
  - intros s promise tags payload Hs id.
    destruct (on_loaded_cases options promise tags payload s)
      as [[_ ->]|[(_ & _ & ->)|[(raw & _ & _ & _ & ->)|(raw & _ & _ & _ & ->)]]];
      [apply Hs | apply Hs | |].
    + intros Hid%load_pending_after_show.
      destruct (show_timers options (with_items (stored_items options raw tags) s))
        as (_ & _ & -> & _).
      by apply Hs in Hid.
    + intros [Hid Hne]%load_pending_after_reset. by apply Hs in Hid.
Qed.

Lemma no_load_before_step options KEYS n s ev :
  no_load_before n s → no_load_before n (step options KEYS s ev).
Proof.
  apply step_preserves; clear s ev; unfold no_load_before.
  - intros s [Hn Hs]. split; [by rewrite reset_eq|].
    intros id Hid [Hp _]%load_pending_after_reset. by apply (Hs id).
  - intros s q tags [Hn Hs]. split; [rewrite load_eq; simpl; lia|].
    intros id Hid [->|[Hp _]]%load_pending_after_load; [lia|].
    by apply (Hs id).
  - intros s nav Hs. destruct (navigate_eq nav s) as (i & top & keep & ->).
    by rewrite select_eq.
  - done.
  - intros s gone [Hn Hs]. split; [done|].
    intros id Hid Hp%load_pending_after_timer_gone. by apply (Hs id).
  - done.
  - done.
  - intros s h Hs.
    destruct (reset_scroll_cases h s) as [->|[[h' ->]| ->]]; apply Hs.
  - intros s promise tags payload [Hn Hs].
    destruct (on_loaded_cases options promise tags payload s)
      as [[_ ->]|[(_ & _ & ->)|[(raw & _ & _ & _ & ->)|(raw & _ & _ & _ & ->)]]];
      [done | done | |].
    + split.
      * destruct (show_timers options
                    (with_items (stored_items options raw tags) s))
          as (_ & -> & _). simpl. lia.
      * intros id Hid Hp%load_pending_after_show. by apply (Hs id).
    + split; [by rewrite reset_eq|].
      intros id Hid [Hp _]%load_pending_after_reset. by apply (Hs id).
Qed.

(** ** Runs from a fresh list *)

Lemma run_app options KEYS s evs1 evs2 :
  run options KEYS s (evs1 ++ evs2)
  = run options KEYS (run options KEYS s evs1) evs2.
Proof. apply foldl_app. Qed.

Lemma run_invariant options KEYS (P : State → Prop) :
  (∀ s ev, P s → P (step options KEYS s ev)) →
  ∀ evs s, P s → P (run options KEYS s evs).
Proof.
  intros Hstep evs. induction evs as [|ev evs IH]; intros s HP; [done|].
  simpl. apply IH. by apply Hstep.
Qed.

Lemma new_SuggestionList_eq options el :
  new_SuggestionList options el
  = MkState [] false (-1) Null None None None
      (negb (autoResize options =? -1)%Z && el) None 0 ∅ 0 ∅ 0 [] [].
Proof. unfold new_SuggestionList. by rewrite reset_eq. Qed.


Lemma reachable_token_is_latest options KEYS el evs :
  token_is_latest (run options KEYS (new_SuggestionList options el) evs).
Proof.
  apply run_invariant; [apply token_is_latest_step|].
  by rewrite new_SuggestionList_eq.
Qed.

Lemma reachable_one_load_timer options KEYS el evs :
  one_load_timer (run options KEYS (new_SuggestionList options el) evs).
Proof.
  apply run_invariant; [apply one_load_timer_step|].
  rewrite new_SuggestionList_eq. intros id (q & tags & d & Hid).
  simpl in Hid. by rewrite lookup_empty in Hid.
Qed.

(** ** Settling a fetch *)

Lemma step_resolved_eq options KEYS promise payload s :
  step options KEYS s (PromiseResolved promise payload)
  = match promises s !! promise with
    | Some tags =>
        final (guarded (on_loaded options promise tags payload)
                 (with_promises (delete promise (promises s)) s))
    | None => s
    end.
Proof.
  unfold step, dispatch. js_unfold. cbv beta iota.
  by destruct (promises s !! promise).
Qed.

Lemma step_rejected_eq options KEYS promise s :
  step options KEYS s (PromiseRejected promise)
  = with_promises (delete promise (promises s)) s.
Proof. reflexivity. Qed.

Lemma resolved_stale options KEYS promise payload s :
  lastPromise s ≠ Some promise →
  step options KEYS s (PromiseResolved promise payload)
  = with_promises (delete promise (promises s)) s.
Proof.
  intros Hstale. rewrite step_resolved_eq.
  destruct (promises s !! promise) as [tags|] eqn:Hp.
  - unfold guarded. rewrite on_loaded_eq. simpl.
    rewrite bool_decide_true; [done | congruence].
  - rewrite delete_id by done. by rewrite with_promises_same.
Qed.

(** C1. In every run from a fresh list, with any number of loads issued
    before earlier ones are settled and the fetches resolving in any order:
    a resolution whose promise is not the current load token leaves the state
    as it is (only the settled promise leaves the table of pending ones), and
    a resolution that changes the set, the visibility, the cursor or the
    selection belongs to the current token, which is the promise of the fetch
    issued last. *)
Theorem C1_only_latest_fetch_applies options KEYS el evs promise payload :
  let s := run options KEYS (new_SuggestionList options el) evs in
  let s' := step options KEYS s (PromiseResolved promise payload) in
  (lastPromise s ≠ Some promise →
   s' = with_promises (delete promise (promises s)) s
   ∧ self_fields s' = self_fields s)
  ∧ (shown_fields s' ≠ shown_fields s →
     lastPromise s = Some promise ∧ S promise = next_promise s).
Proof.
  intros s s'. split.
  - intros Hstale. subst s'. by rewrite resolved_stale.
  - intros Hchanged.
    destruct (decide (lastPromise s = Some promise)) as [Hcur|Hstale].
    + split; [done|].
      by apply (reachable_token_is_latest options KEYS el evs).
    + subst s'. by rewrite resolved_stale in Hchanged.
Qed.

(** Two fetches in flight, the later one for tags [b]: whichever resolves
    first, the list ends up showing what the later fetch delivered. *)
Example race_last_request_wins :
  let start :=
    run text_options dom_keys (new_SuggestionList text_options false)
      [InputChange "abc" (host_with [] "abc"); TimeoutFires 0 None;
       InputChange "abcd" (host_with [] "abcd"); TimeoutFires 1 None] in
  let early := PromiseResolved 0 (PArray [RawString "abcx"; RawString "abcy"]) in
  let late := PromiseResolved 1 (PArray [RawString "abcde"]) in
  shown_fields (run text_options dom_keys start [early; late])
  = ([tag_of "abcde"], true, 0%Z, Obj (tag_of "abcde"))
  ∧ shown_fields (run text_options dom_keys start [late; early])
    = ([tag_of "abcde"], true, 0%Z, Obj (tag_of "abcde"))
  ∧ shown_fields (run text_options dom_keys start [early])
    = shown_fields start.
Proof. cbv zeta. compute_done. Qed.

Lemma C1_only_latest_fetch_applies_witness :
  let evs := [InputChange "abc" (host_with [] "abc"); TimeoutFires 0 None] in
  let s := run text_options dom_keys (new_SuggestionList text_options false) evs in
  (step text_options dom_keys s (PromiseResolved 7 (PArray [RawString "abcx"]))
   = with_promises (delete 7 (promises s)) s)
  ∧ lastPromise s = Some 0 ∧ 1 = next_promise s.
Proof.
  intros evs s. split.
  - apply (C1_only_latest_fetch_applies text_options dom_keys false evs 7
             (PArray [RawString "abcx"])).
    compute_done.
  - apply (C1_only_latest_fetch_applies text_options dom_keys false evs 0
             (PArray [RawString "abcx"])).
    compute_done.
Defined.

Lemma show_shown options s :
  visible (final (show options s)) = true
  ∧ items (final (show options s)) = items s.
Proof. rewrite show_eq. by destruct (selectFirstMatch options). Qed.

(** A resolution that is applied: the token is current and the fetch
    delivered an array.  It stores the difference cut at the maximum, then
    shows the list when the stored set is non-empty and resets it otherwise. *)
Lemma resolved_applied options KEYS promise tags payload raw s :
  promises s !! promise = Some tags →
  lastPromise s = Some promise →
  payload_array payload = Some raw →
  let s0 := with_items (stored_items options raw tags)
              (with_promises (delete promise (promises s)) s) in
  step options KEYS s (PromiseResolved promise payload)
  = if bool_decide (stored_items options raw tags = [])
    then final (reset s0) else final (show options s0).
Proof.
  intros Hp Hcur Hraw. rewrite step_resolved_eq, Hp.
  destruct (on_loaded_cases options promise tags payload
              (with_promises (delete promise (promises s)) s))
    as [[Hstale _]|[(_ & Hnone & _)
       |[(raw' & _ & Hraw' & Hne & ->)|(raw' & _ & Hraw' & Hnil & ->)]]].
  - simpl in Hstale. congruence.
  - congruence.
  - assert (raw' = raw) as -> by congruence.
    by rewrite bool_decide_false.
  - assert (raw' = raw) as -> by congruence.
    rewrite bool_decide_true by done. simpl. by rewrite Hnil.
Qed.

Lemma resolved_applied_items options KEYS promise tags payload raw s :
  promises s !! promise = Some tags →
  lastPromise s = Some promise →
  payload_array payload = Some raw →
  items (step options KEYS s (PromiseResolved promise payload))
  = stored_items options raw tags.
Proof.
  intros Hp Hcur Hraw.
  rewrite (resolved_applied options KEYS promise tags payload raw s) by done.
  case_bool_decide as Hnil.
  - by rewrite reset_eq, Hnil.
  - by destruct (show_shown options
                   (with_items (stored_items options raw tags)
                      (with_promises (delete promise (promises s)) s)))
      as [_ ->].
Qed.



(** ** Truncation *)

Lemma js_slice0_take {A} (array : list A) n :
  (0 ≤ n)%Z → js_slice0 array n = take (Z.to_nat n) array.
Proof.
  intros Hn. unfold js_slice0.
  destruct (Z.ltb_spec n 0); [lia|].
  destruct (Z.le_gt_cases n (Z.of_nat (length array))).
  - by rewrite Z.min_l.
  - rewrite Z.min_r by lia. rewrite Nat2Z.id.
    rewrite !take_ge; [done | lia | done].
Qed.

(** C4. After a resolution that is applied (the token is current and the
    fetch delivered an array): with [maxResultsToShow = N] and [N >= 0] the
    stored set is the first [N] candidates of the difference, so at most [N]
    of them; with [maxResultsToShow = -1] it is the whole difference. *)
Theorem C4_stored_set_is_cut_at_maximum
  options KEYS promise tags payload raw s :
  promises s !! promise = Some tags →
  lastPromise s = Some promise →
  payload_array payload = Some raw →
  let s' := step options KEYS s (PromiseResolved promise payload) in
  let candidates := post_difference options raw tags in
  let N := maxResultsToShow options in
  ((0 ≤ N)%Z →
   items s' = take (Z.to_nat N) candidates
   ∧ (Z.of_nat (length (items s')) ≤ N)%Z)
  ∧ (N = (-1)%Z → items s' = candidates).
Proof.
  intros Hp Hcur Hraw s' candidates N. subst s'.
  rewrite (resolved_applied_items options KEYS promise tags payload raw s)
    by done.
  unfold stored_items. fold candidates N. split.
  - intros HN. destruct (Z.eqb_spec N (-1)); [lia|].
    rewrite js_slice0_take by done. split; [done|].
    rewrite length_take. lia.
  - intros ->. done.
Qed.

Lemma C4_stored_set_is_cut_at_maximum_witness :
  let evs := [InputChange "abc" (host_with [] "abc"); TimeoutFires 0 None] in
  let fetched := RawString <$> ["abca"; "abcb"; "abcc"; "abcd"]%string in
  let two := run (options_showing 2) dom_keys
               (new_SuggestionList (options_showing 2) false) evs in
  let all := run (options_showing (-1)) dom_keys
               (new_SuggestionList (options_showing (-1)) false) evs in
  items (step (options_showing 2) dom_keys two
           (PromiseResolved 0 (PArray fetched)))
  = take 2 (post_difference (options_showing 2) fetched [])
  ∧ items (step (options_showing (-1)) dom_keys all
             (PromiseResolved 0 (PArray fetched)))
    = post_difference (options_showing (-1)) fetched [].
Proof.
  intros evs fetched two all. split.
  - apply (C4_stored_set_is_cut_at_maximum (options_showing 2) dom_keys 0 []
             (PArray fetched) fetched two); compute_done.
  - apply (C4_stored_set_is_cut_at_maximum (options_showing (-1)) dom_keys 0 []
             (PArray fetched) fetched all); compute_done.
Defined.

(** The two examples of the specification. *)
Example difference_example :
  getDifference text_options [tag_of "apple"; tag_of "banana"] [tag_of "banana"]
  = [tag_of "apple"].
Proof. cbv zeta. compute_done. Qed.

Example truncation_example :
  items (run (options_showing 2) dom_keys
           (new_SuggestionList (options_showing 2) false)
           [InputChange "abc" (host_with [] "abc"); TimeoutFires 0 None;
            PromiseResolved 0
              (PArray (RawString <$> ["a"; "b"; "c"; "d"]%string))])
  = [tag_of "a"; tag_of "b"].
Proof. cbv zeta. compute_done. Qed.

(** ** reset and the debounce timer *)

(** A timer under which no debounced load is pending issues no fetch when
    the event loop comes to it. *)
Lemma timer_without_load options KEYS id h s :
  ¬ load_pending s id →
  let s' := step options KEYS s (TimeoutFires id h) in
  next_promise s' = next_promise s ∧ promises s' = promises s
  ∧ lastPromise s' = lastPromise s ∧ self_fields s' = self_fields s.
Proof.
  intros Hno. unfold step, dispatch. js_unfold. cbv beta iota.
  destruct (timeouts s !! id) as [[[q tags|] d]|] eqn:Hid; cbv beta iota.
  - destruct Hno. unfold load_pending. eauto.
  - destruct (reset_scroll_cases h (with_timeouts (delete id (timeouts s)) s))
      as [->|[[h' ->]| ->]]; done.
  - done.
Qed.

Lemma reset_cancels_load s :
  one_load_timer s → ∀ id, ¬ load_pending (final (reset s)) id.
Proof.
  intros Hone id [Hid Hne]%load_pending_after_reset. by apply Hone in Hid.
Qed.

(** C8. After [reset()], called at any point of any run from a fresh list:
    the set is empty, the list hidden, the cursor [-1], the selection and the
    query [null]; no load token is current; no debounced load is pending, and
    none of the timers created before the reset is a pending load at any
    later time, whatever happens next, so none of them issues a fetch when
    the event loop comes to it.  A fresh list is in the same closed state
    with no timer pending. *)
Theorem C8_reset_closes_and_cancels options KEYS el evs :
  let s := run options KEYS (new_SuggestionList options el) evs in
  let s' := final (reset s) in
  completes (reset s) = true
  ∧ items s' = [] ∧ visible s' = false ∧ index s' = (-1)%Z
  ∧ selected s' = Null ∧ query s' = None
  ∧ lastPromise s' = None
  ∧ (∀ id, ¬ load_pending s' id)
  ∧ (∀ later id h,
       id < next_timeout s' →
       let s'' := run options KEYS s' later in
       ¬ load_pending s'' id
       ∧ next_promise (step options KEYS s'' (TimeoutFires id h))
         = next_promise s'')
  ∧ self_fields (new_SuggestionList options el) = closed_fields
  ∧ lastPromise (new_SuggestionList options el) = None
  ∧ timeouts (new_SuggestionList options el) = ∅.
Proof.
  intros s s'.
  pose proof (reachable_one_load_timer options KEYS el evs) as Hone.
  fold s in Hone. pose proof (reset_cancels_load s Hone) as Hnone.
  fold s' in Hnone.
  assert (items s' = [] ∧ visible s' = false ∧ index s' = (-1)%Z
          ∧ selected s' = Null ∧ query s' = None ∧ lastPromise s' = None
          ∧ completes (reset s) = true)
    as (? & ? & ? & ? & ? & ? & ?).
  { clearbody s. subst s'. by rewrite reset_eq. }
  clearbody s' s.
  rewrite !new_SuggestionList_eq. split_and!; try done.
  intros later id h Hid s''.
  assert (no_load_before (next_timeout s') s'') as [_ Hno].
  { subst s''. apply run_invariant; [apply no_load_before_step|].
    split; [done|]. intros id' _. apply Hnone. }
  split; [by apply Hno|].
  by apply timer_without_load, Hno.
Qed.

Lemma C8_reset_closes_and_cancels_witness :
  let evs := [InputChange "abc" (host_with [] "abc")] in
  let s := run text_options dom_keys (new_SuggestionList text_options false) evs in
  load_pending s 0
  ∧ let s'' := run text_options dom_keys (final (reset s))
                 [InputChange "abcd" (host_with [] "abcd")] in
    ¬ load_pending s'' 0
    ∧ next_promise (step text_options dom_keys s'' (TimeoutFires 0 None))
      = next_promise s''.
Proof.
  intros evs s. split.
  - by exists "abc"%string, [], 100%Z.
  - apply (C8_reset_closes_and_cancels text_options dom_keys false evs).
    compute_done.
Defined.

(** ** A fetch that fails *)

(** C3 as stated does not hold: on a fresh list, a load for [abc] whose
    debounce timer fires and whose fetch is then rejected leaves [abc] in the
    query, which was [null] before the cycle. *)
Lemma C3_counterexample :
  let s0 := new_SuggestionList text_options false in
  let s2 := run text_options dom_keys s0
              [InputChange "abc" (host_with [] "abc"); TimeoutFires 0 None] in
  let s3 := step text_options dom_keys s2 (PromiseRejected 0) in
  promises s2 !! 0 = Some []
  ∧ query s0 = None
  ∧ query s3 = Some "abc"%string
  ∧ self_fields s3 ≠ self_fields s0.
Proof. cbv zeta. compute_done. Qed.

(** C3, as amended. A load cycle whose fetch fails: the call of [load]
    changes no field of the list; the debounce timer, when it fires, stores
    the query and issues the fetch; the rejection of the fetch changes
    nothing but the table of pending promises, and it does so in any state.
    So after the cycle the set, the visibility, the cursor and the selection
    are what they were, the query is that of the load, and nothing was thrown
    or handed to [$exceptionHandler]. *)
Theorem C3_failed_fetch_keeps_the_list options KEYS q tags h s any promise :
  let s1 := final (load options q tags s) in
  let s2 := step options KEYS s1 (TimeoutFires (next_timeout s) h) in
  let s3 := step options KEYS s2 (PromiseRejected (next_promise s)) in
  self_fields s1 = self_fields s
  ∧ promises s2 !! next_promise s = Some tags
  ∧ shown_fields s2 = shown_fields s ∧ query s2 = Some q
  ∧ s3 = with_promises (delete (next_promise s) (promises s2)) s2
  ∧ shown_fields s3 = shown_fields s ∧ query s3 = Some q
  ∧ exceptions s3 = exceptions s
  ∧ completes (load options q tags s) = true
  ∧ completes (dispatch options KEYS (TimeoutFires (next_timeout s) h) s1) = true
  ∧ dispatch options KEYS (PromiseRejected promise) any
    = Normal () (with_promises (delete promise (promises any)) any).
Proof.
  intros s1 s2 s3.
  assert (s2 = final (debounced_load q tags
                        (with_timeouts (delete (next_timeout s) (timeouts s1))
                           s1))) as Hs2.
  { subst s2. unfold step, dispatch. js_unfold. cbv beta iota.
    subst s1. rewrite load_eq. simpl. by rewrite lookup_insert_eq. }
  assert (completes (dispatch options KEYS (TimeoutFires (next_timeout s) h) s1)
          = true) as Hdone.
  { unfold dispatch. js_unfold. cbv beta iota.
    subst s1. rewrite load_eq. simpl. by rewrite lookup_insert_eq. }
  subst s3. rewrite step_rejected_eq. rewrite Hs2. clear Hs2 s2.
  subst s1. rewrite load_eq in *. rewrite debounced_load_eq. simpl.
  split_and!; try done.
  by rewrite lookup_insert_eq.
Qed.

(** ** The cursor *)

Lemma cursor_valid_ext s s' :
  items s' = items s → visible s' = visible s → index s' = index s →
  cursor_valid s → cursor_valid s'.
Proof.
  unfold cursor_valid, shown_nonempty, cursor_in_range.
  by intros -> -> ->.
Qed.

Lemma select_cursor_valid i s :
  shown_nonempty s → cursor_valid (final (select i s)).
Proof.
  intros Hne. split.
  - unfold shown_nonempty. by rewrite select_eq.
  - intros Hopen. apply select_in_range. apply Hne.
    by rewrite select_eq in Hopen.
Qed.

Lemma cursor_valid_step options KEYS s ev :
  selectFirstMatch options = true →
  cursor_valid s → cursor_valid (step options KEYS s ev).
Proof.
  intros Hfirst.
  apply step_preserves; clear s ev.
  - intros s _. rewrite reset_eq. by split.
  - intros s q tags Hs. rewrite load_eq. by eapply cursor_valid_ext.
  - intros s n [Hne _]. destruct (navigate_eq n s) as (i & top & keep & ->).
    apply (cursor_valid_ext (final (select i (with_index keep s)))); try done.
    by apply select_cursor_valid.
  - intros s c. by apply cursor_valid_ext.
  - intros s id. by apply cursor_valid_ext.
  - intros s promise. by apply cursor_valid_ext.
  - intros s q tags. by apply cursor_valid_ext.
  - intros s h Hs.
    destruct (reset_scroll_cases h s) as [->|[[h' ->]| ->]]; [done| |];
      by eapply cursor_valid_ext.
  - intros s promise tags payload Hs.
    destruct (on_loaded_cases options promise tags payload s)
      as [[_ ->]|[(_ & _ & ->)|[(raw & _ & _ & Hne & ->)|(raw & _ & _ & _ & ->)]]];
      [done | by eapply cursor_valid_ext | | by rewrite reset_eq].
    rewrite show_eq, Hfirst.
    apply (cursor_valid_ext
             (with_visible true
                (final (select 0 (with_items (stored_items options raw tags) s)))));
      try done.
    destruct (select_in_range 0 (with_items (stored_items options raw tags) s))
      as (Hitems & _ & Hcur & _); [done|].
    split; [|done].
    intros _. change (items (final (select 0 (with_items
                                (stored_items options raw tags) s))) ≠ []).
    by rewrite Hitems.
Qed.

(** With [selectFirstMatch] on (the default), the cursor points into the set
    whenever the list is visible. *)
Lemma reachable_cursor_valid options KEYS el evs :
  selectFirstMatch options = true →
  let s := run options KEYS (new_SuggestionList options el) evs in
  visible s = true → cursor_in_range s.
Proof.
  intros Hfirst s.
  assert (cursor_valid s) as [_ Hcur]; [|done].
  apply run_invariant; [intros; by apply cursor_valid_step|].
  by rewrite new_SuggestionList_eq.
Qed.

(** C6, at the input where it fails. With [selectFirstMatch] off: three
    candidates are loaded, the cursor is moved down to the last of them, and
    a second load delivers one candidate while the list is open.  [show]
    clears the selection and leaves the cursor where it was: the list is
    visible over one candidate with the cursor at [2], which is neither in
    [0, 0] nor [-1].  The next key down then selects relative to that stale
    cursor. *)
Theorem C6_stale_cursor_after_reload :
  let s :=
    run options_no_first_match dom_keys
      (new_SuggestionList options_no_first_match false)
      [InputChange "abc" (host_with [] "abc"); TimeoutFires 0 None;
       PromiseResolved 0 (PArray (RawString <$> ["abcx"; "abcy"; "abcz"]%string));
       InputKeydown 40 (host_with [] "abc");
       InputKeydown 40 (host_with [] "abc");
       InputKeydown 40 (host_with [] "abc");
       InputChange "abcz" (host_with [] "abcz"); TimeoutFires 2 None;
       PromiseResolved 1 (PArray [RawString "abcz"])] in
  visible s = true
  ∧ items s = [tag_of "abcz"]
  ∧ selected s = Null
  ∧ index s = 2%Z
  ∧ ¬ cursor_in_range s
  ∧ index s ≠ (-1)%Z.
Proof.
  cbv zeta. compute_done.
Qed.

(** ** Further examples *)

(** Two more examples of the specification: escape closes an open list, and
    of three quick changes of the input only the one that reaches the
    minimum length leaves a load pending. *)
Example escape_example :
  let opened := run text_options dom_keys
                  (new_SuggestionList text_options false) opened_events in
  visible opened = true
  ∧ self_fields (step text_options dom_keys opened
                   (InputKeydown 27 (host_with [] "abc")))
    = closed_fields.
Proof. cbv zeta. compute_done. Qed.

Example debounce_example :
  let typed := run text_options dom_keys
                 (new_SuggestionList text_options false)
                 [InputChange "a" (host_with [] "a");
                  InputChange "ab" (host_with [] "ab");
                  InputChange "abc" (host_with [] "abc")] in
  map_to_list (timeouts typed) = [(0, (DebouncedLoad "abc" [], 100%Z))]
  ∧ next_promise typed = 0.
Proof. cbv zeta. compute_done. Qed.

(** * Further properties of the directive *)

(** ** Every turn of the event loop is a transition *)

Lemma selectNext_scroll s :
  selectNext s
  = scroll (final (select (index s + 1) (with_index (index s + 1) s))).
Proof. reflexivity. Qed.

Lemma selectPrior_scroll s :
  selectPrior s
  = scroll (final (select (index s - 1) (with_index (index s - 1) s))).
Proof. reflexivity. Qed.

Lemma selectNext_final s : ∃ s', selectNext s = Normal () s'.
Proof. destruct (selectNext_eq s) as [top ->]. eauto. Qed.

Lemma selectPrior_final s : ∃ s', selectPrior s = Normal () s'.
Proof. destruct (selectPrior_eq s) as [top ->]. eauto. Qed.

Lemma addSuggestion_final s : ∃ b s', addSuggestion s = Normal b s'.
Proof. rewrite addSuggestion_eq. destruct (selected s); eauto. Qed.

Lemma step_transition options KEYS s ev :
  transition options s (step options KEYS s ev).
Proof.
  unfold step.
  destruct ev as [| | | |value host|host|key host|i| |i|id h|promise payload
                 |promise]; simpl; try apply t_reset.
  - unfold on_input_change.
    destruct (shouldLoadSuggestions _ _) eqn:Hq; [|apply t_reset].
    apply t_load. by left.
  - unfold on_input_focus.
    destruct (loadOnFocus options); simpl; [|apply t_stay].
    destruct (shouldLoadSuggestions _ _) eqn:Hq; [|apply t_stay].
    apply t_load. by left.
  - js_unfold. unfold on_input_keydown. case_bool_decide; [apply t_stay|].
    js_unfold. destruct (visible s) eqn:Hopen.
    + destruct (key =? KEYS_down KEYS)%Z.
      { pose proof (t_navigate options s GoNext) as Ht. simpl in Ht.
        by destruct (selectNext s). }
      destruct (key =? KEYS_up KEYS)%Z.
      { pose proof (t_navigate options s GoPrior) as Ht. simpl in Ht.
        by destruct (selectPrior s). }
      destruct (key =? KEYS_escape KEYS)%Z.
      { pose proof (t_reset options s) as Ht. by destruct (reset s). }
      destruct (_ || _); [|apply t_stay].
      pose proof (t_commit options s s (or_introl eq_refl)) as Ht.
      by destruct (addSuggestion s) as [[] ?|].
    + destruct (key =? KEYS_down KEYS)%Z; simpl; [|apply t_stay].
      destruct (loadOnDownArrow options) eqn:Hdown; [|apply t_stay].
      pose proof (t_load options s (getCurrentTagText host) (getTags host)
                    (or_intror (conj Hdown Hopen))) as Ht.
      by destruct (load _ _ _ s).
  - unfold addSuggestionByIndex. js_unfold.
    pose proof (t_commit options s (final (select i s))
                  (or_intror (ex_intro _ i eq_refl))) as Ht.
    rewrite select_eq in *. cbv beta iota zeta in *. simpl in Ht.
    by destruct (addSuggestion _).
  - js_unfold.
    pose proof (t_commit options s s (or_introl eq_refl)) as Ht.
    by destruct (addSuggestion s).
  - apply (t_navigate options s (GoTo i)).
  - js_unfold. cbv beta iota.
    destruct (timeouts s !! id) as [[[q tags|] d]|] eqn:Hid; cbv beta iota.
    + change (guarded (debounced_load q tags) ?s')
        with (debounced_load q tags s').
      by eapply t_fire_load.
    + by eapply t_fire_scroll.
    + apply t_stay.
  - js_unfold. cbv beta iota.
    destruct (promises s !! promise) as [tags|] eqn:Hp; cbv beta iota.
    + by apply t_resolved.
    + apply t_stay.
  - apply t_rejected.
Qed.

(** ** The cursor moves in a cycle *)

Lemma selectNext_step s :
  cursor_in_range s →
  let s' := final (selectNext s) in
  let L := Z.of_nat (length (items s)) in
  index s' = ((index s + 1) `mod` L)%Z
  ∧ items s' = items s
  ∧ selected s' = js_at (items s) (index s').
Proof.
  unfold cursor_in_range. intros Hi.
  destruct (selectNext_eq s) as [top ->]. rewrite select_eq. simpl.
  split_and!; [|done|done].
  destruct (Z.ltb_spec (index s + 1) 0); [lia|].
  destruct (Z.geb_spec (index s + 1) (Z.of_nat (length (items s)))).
  - replace (index s + 1)%Z with (Z.of_nat (length (items s))) by lia.
    by rewrite Z_mod_same_full.
  - by rewrite Z.mod_small by lia.
Qed.

Lemma selectPrior_step s :
  cursor_in_range s →
  let s' := final (selectPrior s) in
  let L := Z.of_nat (length (items s)) in
  index s' = ((index s - 1) `mod` L)%Z
  ∧ items s' = items s
  ∧ selected s' = js_at (items s) (index s').
Proof.
  unfold cursor_in_range. intros Hi.
  destruct (selectPrior_eq s) as [top ->]. rewrite select_eq. simpl.
  split_and!; [|done|done].
  destruct (Z.ltb_spec (index s - 1) 0).
  - apply (Z.mod_unique_pos _ _ (-1)); lia.
  - destruct (Z.geb_spec (index s - 1) (Z.of_nat (length (items s)))); [lia|].
    by rewrite Z.mod_small by lia.
Qed.

Lemma mod_in_range a L : (0 < L)%Z → (0 ≤ a `mod` L < L)%Z.
Proof. intros. by apply Z.mod_pos_bound. Qed.

Lemma next_times_spec n s :
  cursor_in_range s →
  let L := Z.of_nat (length (items s)) in
  items (next_times n s) = items s
  ∧ index (next_times n s) = ((index s + Z.of_nat n) `mod` L)%Z
  ∧ (0 < n → selected (next_times n s)
             = js_at (items s) (index (next_times n s))).
Proof.
  intros Hs L. assert (0 < L)%Z as HL by (unfold cursor_in_range in Hs; lia).
  induction n as [|n (Hitems & Hindex & _)].
  - simpl. split_and!; [done | | lia].
    rewrite Z.add_0_r, Z.mod_small; [done|]. apply Hs.
  - change (next_times (S n) s) with (final (selectNext (next_times n s))).
    destruct (selectNext_step (next_times n s)) as (Hi & Hit & Hsel).
    { unfold cursor_in_range. rewrite Hitems, Hindex. by apply mod_in_range. }
    rewrite Hit, Hitems in *. rewrite Hsel. split_and!; [done | | done].
    rewrite Hi, Hindex. fold L. rewrite Zplus_mod_idemp_l. f_equal. lia.
Qed.

Lemma prior_times_spec n s :
  cursor_in_range s →
  let L := Z.of_nat (length (items s)) in
  items (prior_times n s) = items s
  ∧ index (prior_times n s) = ((index s - Z.of_nat n) `mod` L)%Z
  ∧ (0 < n → selected (prior_times n s)
             = js_at (items s) (index (prior_times n s))).
Proof.
  intros Hs L. assert (0 < L)%Z as HL by (unfold cursor_in_range in Hs; lia).
  induction n as [|n (Hitems & Hindex & _)].
  - simpl. split_and!; [done | | lia].
    rewrite Z.sub_0_r, Z.mod_small; [done|]. apply Hs.
  - change (prior_times (S n) s) with (final (selectPrior (prior_times n s))).
    destruct (selectPrior_step (prior_times n s)) as (Hi & Hit & Hsel).
    { unfold cursor_in_range. rewrite Hitems, Hindex. by apply mod_in_range. }
    rewrite Hit, Hitems in *. rewrite Hsel. split_and!; [done | | done].
    rewrite Hi, Hindex. fold L. rewrite Zminus_mod_idemp_l. f_equal. lia.
Qed.

(** X1. On a set of length [L] with the cursor inside it, [n] calls of
    [selectNext] put the cursor at [(index + n) mod L] and [n] calls of
    [selectPrior] at [(index - n) mod L]; the set is left as it is and the
    selection follows the cursor.  So [selectPrior] undoes [selectNext] and
    the other way round, and [L] calls of either come back to where the
    cursor was. *)
Theorem X1_navigation_is_cyclic (n : nat) (s : State) :
  cursor_in_range s →
  let L := Z.of_nat (length (items s)) in
  (items (next_times n s) = items s
   ∧ index (next_times n s) = ((index s + Z.of_nat n) `mod` L)%Z
   ∧ (0 < n → selected (next_times n s)
              = js_at (items s) (index (next_times n s))))
  ∧ (items (prior_times n s) = items s
     ∧ index (prior_times n s) = ((index s - Z.of_nat n) `mod` L)%Z
     ∧ (0 < n → selected (prior_times n s)
                = js_at (items s) (index (prior_times n s))))
  ∧ index (final (selectPrior (final (selectNext s)))) = index s
  ∧ index (final (selectNext (final (selectPrior s)))) = index s
  ∧ index (next_times (length (items s)) s) = index s
  ∧ index (prior_times (length (items s)) s) = index s.
Proof.
  intros Hs L. assert (0 < L)%Z as HL by (unfold cursor_in_range in Hs; lia).
  pose proof Hs as Hi. unfold cursor_in_range in Hi. fold L in Hi.
  split; [by apply next_times_spec|]. split; [by apply prior_times_spec|].
  split_and!.
  - destruct (selectNext_step s Hs) as (Hn & Hit & _).
    destruct (selectPrior_step (final (selectNext s))) as (Hp & _).
    { unfold cursor_in_range. rewrite Hit, Hn. by apply mod_in_range. }
    rewrite Hp, Hit, Hn. fold L. rewrite Zminus_mod_idemp_l.
    replace (index s + 1 - 1)%Z with (index s) by lia. by apply Z.mod_small.
  - destruct (selectPrior_step s Hs) as (Hp & Hit & _).
    destruct (selectNext_step (final (selectPrior s))) as (Hn & _).
    { unfold cursor_in_range. rewrite Hit, Hp. by apply mod_in_range. }
    rewrite Hn, Hit, Hp. fold L. rewrite Zplus_mod_idemp_l.
    replace (index s - 1 + 1)%Z with (index s) by lia. by apply Z.mod_small.
  - destruct (next_times_spec (length (items s)) s Hs) as (_ & -> & _).
    fold L. rewrite <- (Z.mul_1_l L) at 1. rewrite Z_mod_plus_full.
    by apply Z.mod_small.
  - destruct (prior_times_spec (length (items s)) s Hs) as (_ & -> & _).
    fold L. replace (index s - L)%Z with (index s + (-1) * L)%Z by lia.
    rewrite Z_mod_plus_full. by apply Z.mod_small.
Qed.

Lemma X1_navigation_is_cyclic_witness :
  let opened := run text_options dom_keys
                  (new_SuggestionList text_options false) opened_events in
  index (next_times 4 opened)
  = ((index opened + Z.of_nat 4) `mod` Z.of_nat (length (items opened)))%Z
  ∧ index (prior_times 4 opened)
    = ((index opened - Z.of_nat 4) `mod` Z.of_nat (length (items opened)))%Z.
Proof.
  intros opened.
  assert (cursor_in_range opened) as Hs by compute_done.
  split.
  - exact (proj1 (proj2 (proj1 (X1_navigation_is_cyclic 4 opened Hs)))).
  - exact (proj1 (proj2 (proj1 (proj2 (X1_navigation_is_cyclic 4 opened Hs))))).
Defined.

Example navigation_example :
  let opened := run text_options dom_keys
                  (new_SuggestionList text_options false) opened_events in
  index opened = 0%Z
  ∧ index (next_times 4 opened) = 1%Z
  ∧ index (prior_times 4 opened) = 2%Z
  ∧ selected (prior_times 1 opened) = Obj (tag_of "abcz").
Proof. cbv zeta. compute_done. Qed.

(** ** The selection is the candidate under the cursor *)

Lemma js_at_Obj {A} (array : list A) i x :
  js_at array i = Obj x → (0 ≤ i)%Z ∧ array !! Z.to_nat i = Some x.
Proof.
  unfold js_at. destruct (Z.ltb_spec i 0); [done|].
  destruct (array !! Z.to_nat i) as [y|]; [|done].
  intros [= ->]. done.
Qed.

Lemma select_selection_at_cursor i s : selection_at_cursor (final (select i s)).
Proof. rewrite select_eq. intros c Hc. simpl in *. by apply js_at_Obj. Qed.

Lemma selection_at_cursor_ext s s' :
  items s' = items s → index s' = index s → selected s' = selected s →
  selection_at_cursor s → selection_at_cursor s'.
Proof. unfold selection_at_cursor. by intros -> -> ->. Qed.

Lemma selection_at_cursor_step options KEYS s ev :
  selection_at_cursor s → selection_at_cursor (step options KEYS s ev).
Proof.
  apply step_preserves; clear s ev.
  - intros s _ c. by rewrite reset_eq.
  - intros s q tags. rewrite load_eq. by apply selection_at_cursor_ext.
  - intros s n _. destruct (navigate_eq n s) as (i & top & keep & ->).
    apply (selection_at_cursor_ext (final (select i (with_index keep s))));
      try done.
    apply select_selection_at_cursor.
  - intros s c. by apply selection_at_cursor_ext.
  - intros s id. by apply selection_at_cursor_ext.
  - intros s promise. by apply selection_at_cursor_ext.
  - intros s q tags. by apply selection_at_cursor_ext.
  - intros s h Hs.
    destruct (reset_scroll_cases h s) as [->|[[h' ->]| ->]]; [done| |];
      by eapply selection_at_cursor_ext.
  - intros s promise tags payload Hs.
    destruct (on_loaded_cases options promise tags payload s)
      as [[_ ->]|[(_ & _ & ->)|[(raw & _ & _ & Hne & ->)|(raw & _ & _ & _ & ->)]]];
      [done | by eapply selection_at_cursor_ext | |].
    + rewrite show_eq. destruct (selectFirstMatch options).
      * apply (selection_at_cursor_ext
                 (final (select 0 (with_items (stored_items options raw tags) s))));
          try done.
        apply select_selection_at_cursor.
      * by intros c.
    + intros c. by rewrite reset_eq.
Qed.

Lemma reachable_selection_at_cursor options KEYS el evs :
  selection_at_cursor (run options KEYS (new_SuggestionList options el) evs).
Proof.
  apply run_invariant; [apply selection_at_cursor_step|].
  rewrite new_SuggestionList_eq. by intros c.
Qed.

(** X2. In every run from a fresh list, with any options: when the selection
    is a candidate, the cursor is inside the set and the selection is the
    candidate at the cursor.  (The cursor alone can be stale when
    [selectFirstMatch] is off, but then the selection is [null].) *)
Theorem X2_selection_is_under_the_cursor options KEYS el evs c :
  let s := run options KEYS (new_SuggestionList options el) evs in
  selected s = Obj c →
  cursor_in_range s
  ∧ items s !! Z.to_nat (index s) = Some c
  ∧ c ∈ items s.
Proof.
  intros s Hc.
  destruct (reachable_selection_at_cursor options KEYS el evs c Hc)
    as [Hi Hlook].
  fold s in Hi, Hlook. split_and!; [|done|].
  - apply lookup_lt_Some in Hlook. unfold cursor_in_range. lia.
  - by eapply list_elem_of_lookup_2.
Qed.

Lemma X2_selection_is_under_the_cursor_witness :
  let s := run text_options dom_keys (new_SuggestionList text_options false)
             (opened_events ++ [InputKeydown 38 (host_with [] "abc")]) in
  cursor_in_range s
  ∧ items s !! Z.to_nat (index s) = Some (tag_of "abcz")
  ∧ tag_of "abcz" ∈ items s.
Proof.
  intros s.
  apply (X2_selection_is_under_the_cursor text_options dom_keys false
           (opened_events ++ [InputKeydown 38 (host_with [] "abc")])
           (tag_of "abcz")).
  compute_done.
Defined.

(** ** What the host is asked to do *)

Lemma addSuggestion_calls s :
  match selected s with
  | Obj c =>
      host_calls (final (addSuggestion s))
      = host_calls s ++ [AddTag c; FocusInput]
      ∧ self_fields (final (addSuggestion s)) = closed_fields
  | Null | Undefined => final (addSuggestion s) = s
  end.
Proof.
  rewrite addSuggestion_eq. destruct (selected s) as [| |c]; try done.
  cbv zeta. rewrite reset_eq. simpl. by rewrite <- app_assoc.
Qed.

Lemma show_host_calls options s :
  host_calls (final (show options s)) = host_calls s.
Proof. rewrite show_eq. by destruct (selectFirstMatch options). Qed.

Lemma transition_host_calls options s s' :
  transition options s s' →
  selection_at_cursor s →
  host_calls s' = host_calls s
  ∨ ∃ c, c ∈ items s
         ∧ host_calls s' = host_calls s ++ [AddTag c; FocusInput]
         ∧ self_fields s' = closed_fields.
Proof.
  intros Ht Hsel.
  destruct Ht as [s|s|s q tags _|s n|s s1 Hs1|s id q tags d _|s id d h _
                 |s promise tags payload _|s promise].
  - by left.
  - left. by rewrite reset_eq.
  - left. by rewrite load_eq.
  - left. destruct (navigate_eq n s) as (i & top & keep & ->).
    by rewrite select_eq.
  - pose proof (addSuggestion_calls s1) as Hadd.
    destruct Hs1 as [->|[i ->]].
    + destruct (selected s) as [| |c] eqn:Hc; [left; by rewrite Hadd..|].
      right. exists c. split; [|done].
      destruct (Hsel c Hc) as [_ Hlook]. by eapply list_elem_of_lookup_2.
    + pose proof (select_selection_at_cursor i s) as Hsel1.
      assert (host_calls (final (select i s)) = host_calls s
              ∧ items (final (select i s)) = items s) as [Hcalls Hitems]
        by by rewrite select_eq.
      destruct (selected (final (select i s))) as [| |c] eqn:Hc;
        [left; by rewrite Hadd..|].
      right. exists c. rewrite <- Hcalls, <- Hitems. split; [|done].
      destruct (Hsel1 c Hc) as [_ Hlook]. by eapply list_elem_of_lookup_2.
  - left. by rewrite debounced_load_eq.
  - left. destruct (reset_scroll_cases h
                      (with_timeouts (delete id (timeouts s)) s))
      as [->|[[h' ->]| ->]]; done.
  - left. destruct (on_loaded_cases options promise tags payload
                      (with_promises (delete promise (promises s)) s))
      as [[_ ->]|[(_ & _ & ->)|[(raw & _ & _ & _ & ->)|(raw & _ & _ & _ & ->)]]];
      [done | done | by rewrite show_host_calls | by rewrite reset_eq].
  - by left.
Qed.

(** X3. In every run from a fresh list a turn of the event loop either asks
    nothing of the host, or asks it to add one tag and then to focus the
    input, in this order; the tag is a candidate of the set as it was before
    the turn, and the list is closed after it. *)
Theorem X3_commit_adds_a_candidate_of_the_set options KEYS el evs ev :
  let s := run options KEYS (new_SuggestionList options el) evs in
  let s' := step options KEYS s ev in
  host_calls s' = host_calls s
  ∨ ∃ c, c ∈ items s
         ∧ host_calls s' = host_calls s ++ [AddTag c; FocusInput]
         ∧ self_fields s' = closed_fields.
Proof.
  intros s s'. apply (transition_host_calls options).
  - apply step_transition.
  - apply reachable_selection_at_cursor.
Qed.

Example commit_by_index_example :
  let opened := run text_options dom_keys
                  (new_SuggestionList text_options false) opened_events in
  host_calls (step text_options dom_keys opened (AddSuggestionByIndex 1))
  = [AddTag (tag_of "abcy"); FocusInput].
Proof. cbv zeta. compute_done. Qed.

(** ** Nothing is thrown into the host *)

Lemma guarded_normal callback s : ∃ s', guarded callback s = Normal () s'.
Proof. unfold guarded. destruct (callback s); eauto. Qed.

Lemma dispatch_normal options KEYS ev s :
  dispatch options KEYS ev s = Normal () (step options KEYS s ev).
Proof.
  assert (∃ s', dispatch options KEYS ev s = Normal () s') as [s' Hs'];
    [|unfold step; by rewrite Hs'].
  destruct ev as [| | | |value host|host|key host|i| |i|id h|promise payload
                 |promise]; simpl; try (rewrite reset_eq; by eauto).
  - unfold on_input_change. destruct (shouldLoadSuggestions _ _).
    + rewrite load_eq. eauto.
    + rewrite reset_eq. eauto.
  - unfold on_input_focus. destruct (_ && _); [|by eauto].
    rewrite load_eq. eauto.
  - js_unfold. unfold on_input_keydown. case_bool_decide; [by eauto|].
    js_unfold. destruct (visible s).
    + destruct (key =? KEYS_down KEYS)%Z.
      { destruct (selectNext_final s) as [s1 ->]. eauto. }
      destruct (key =? KEYS_up KEYS)%Z.
      { destruct (selectPrior_final s) as [s1 ->]. eauto. }
      destruct (key =? KEYS_escape KEYS)%Z.
      { rewrite reset_eq. eauto. }
      destruct (_ || _); [|by eauto].
      destruct (addSuggestion_final s) as (b & s1 & ->). destruct b; eauto.
    + destruct (_ && _); [|by eauto]. rewrite load_eq. eauto.
  - unfold addSuggestionByIndex. js_unfold. rewrite select_eq. cbv zeta.
    cbv beta iota.
    match goal with
    | |- context [addSuggestion ?s1] =>
        destruct (addSuggestion_final s1) as (b & s2 & ->)
    end.
    eauto.
  - js_unfold. destruct (addSuggestion_final s) as (b & s1 & ->). eauto.
  - rewrite select_eq. eauto.
  - js_unfold. cbv beta iota.
    destruct (timeouts s !! id) as [[[q tags|] d]|]; cbv beta iota;
      [apply guarded_normal | apply guarded_normal | by eauto].
  - js_unfold. cbv beta iota.
    destruct (promises s !! promise) as [tags|]; cbv beta iota;
      [apply guarded_normal | by eauto].
  - eauto.
Qed.

Lemma show_exceptions options s :
  exceptions (final (show options s)) = exceptions s.
Proof. rewrite show_eq. by destruct (selectFirstMatch options). Qed.

Lemma transition_exceptions options s s' :
  transition options s s' →
  exceptions s' = exceptions s ∨ exceptions s' = exceptions s ++ [TypeError].
Proof.
  intros Ht.
  destruct Ht as [s|s|s q tags _|s n|s s1 Hs1|s id q tags d _|s id d h _
                 |s promise tags payload _|s promise].
  - by left.
  - left. by rewrite reset_eq.
  - left. by rewrite load_eq.
  - left. destruct (navigate_eq n s) as (i & top & keep & ->).
    by rewrite select_eq.
  - left. rewrite addSuggestion_eq.
    assert (exceptions s1 = exceptions s) as <-.
    { destruct Hs1 as [->|[i ->]]; [done | by rewrite select_eq]. }
    destruct (selected s1); try done. cbv zeta. by rewrite reset_eq.
  - left. by rewrite debounced_load_eq.
  - destruct (reset_scroll_cases h (with_timeouts (delete id (timeouts s)) s))
      as [->|[[h' ->]| ->]]; [by left | by left | by right].
  - destruct (on_loaded_cases options promise tags payload
                (with_promises (delete promise (promises s)) s))
      as [[_ ->]|[(_ & _ & ->)|[(raw & _ & _ & _ & ->)|(raw & _ & _ & _ & ->)]]];
      [by left | by right | left; by rewrite show_exceptions
      | left; by rewrite reset_eq].
  - by left.
Qed.

(** X4. No handler and no callback of the directive throws into its caller:
    every turn of the event loop completes normally from any state, and what
    a callback of [$timeout] or [$q] throws is a single [TypeError] handed
    to [$exceptionHandler]. *)
Theorem X4_every_turn_completes options KEYS ev s :
  dispatch options KEYS ev s = Normal () (step options KEYS s ev)
  ∧ (exceptions (step options KEYS s ev) = exceptions s
     ∨ exceptions (step options KEYS s ev) = exceptions s ++ [TypeError]).
Proof.
  split; [apply dispatch_normal|].
  apply (transition_exceptions options), step_transition.
Qed.

(** X5. A fetch that resolves to [null] or [undefined]: when its promise is
    the current load token, reading [items.data] throws; the [TypeError] goes
    to [$exceptionHandler] and the list is left exactly as it was, open or
    closed, with the token still current.  When the promise is stale the
    payload is not looked at and nothing is thrown. *)
Theorem X5_malformed_payload_changes_nothing
  options KEYS promise tags payload s :
  promises s !! promise = Some tags →
  payload_array payload = None →
  let s' := step options KEYS s (PromiseResolved promise payload) in
  (lastPromise s = Some promise →
   s' = with_exceptions (exceptions s ++ [TypeError])
          (with_promises (delete promise (promises s)) s))
  ∧ (lastPromise s ≠ Some promise →
     s' = with_promises (delete promise (promises s)) s)
  ∧ self_fields s' = self_fields s
  ∧ lastPromise s' = lastPromise s.
Proof.
  intros Hp Hnone s'. subst s'.
  destruct (decide (lastPromise s = Some promise)) as [Hcur|Hstale].
  - assert (step options KEYS s (PromiseResolved promise payload)
            = with_exceptions (exceptions s ++ [TypeError])
                (with_promises (delete promise (promises s)) s)) as ->.
    { rewrite step_resolved_eq, Hp. unfold guarded. rewrite on_loaded_eq.
      simpl. rewrite bool_decide_false by (intros ?; congruence).
      by rewrite Hnone. }
    done.
  - rewrite resolved_stale by done. done.
Qed.

Lemma X5_malformed_payload_changes_nothing_witness :
  let s := run text_options dom_keys (new_SuggestionList text_options false)
             (opened_events
              ++ [InputChange "abcd" (host_with [] "abcd"); TimeoutFires 2 None]) in
  let s' := step text_options dom_keys s (PromiseResolved 1 PUndefined) in
  (lastPromise s = Some 1 →
   s' = with_exceptions (exceptions s ++ [TypeError])
          (with_promises (delete 1 (promises s)) s))
  ∧ (lastPromise s ≠ Some 1 →
     s' = with_promises (delete 1 (promises s)) s)
  ∧ self_fields s' = self_fields s
  ∧ lastPromise s' = lastPromise s.
Proof.
  intros s.
  apply (X5_malformed_payload_changes_nothing text_options dom_keys 1 []
           PUndefined s); compute_done.
Defined.

Example malformed_payload_example :
  let s := run text_options dom_keys (new_SuggestionList text_options false)
             (opened_events
              ++ [InputChange "abcd" (host_with [] "abcd"); TimeoutFires 2 None]) in
  let s' := step text_options dom_keys s (PromiseResolved 1 PUndefined) in
  visible s' = true ∧ length (items s') = 3 ∧ exceptions s' = [TypeError].
Proof. cbv zeta. compute_done. Qed.

(** ** What a resolution stores *)

Lemma stored_items_prefix options raw tags :
  ∃ k, stored_items options raw tags
       = take k (post_difference options raw tags).
Proof.
  unfold stored_items. destruct (maxResultsToShow options =? -1)%Z.
  - exists (length (post_difference options raw tags)). by rewrite firstn_all.
  - unfold js_slice0. eauto.
Qed.

(** X6. The maximum is not checked for being a count.  After a resolution
    that is applied, a [maxResultsToShow] below [-1] cuts the difference from
    its end ([slice(0, N)] drops the last [-N] candidates and keeps none when
    there are no more than that), and a maximum of [0] stores nothing, so the
    list is closed however many candidates were fetched. *)
Theorem X6_negative_maximum_cuts_from_the_end
  options KEYS promise tags payload raw s :
  promises s !! promise = Some tags →
  lastPromise s = Some promise →
  payload_array payload = Some raw →
  let s' := step options KEYS s (PromiseResolved promise payload) in
  let candidates := post_difference options raw tags in
  let N := maxResultsToShow options in
  ((N < -1)%Z →
   items s' = take (length candidates - Z.to_nat (- N)) candidates)
  ∧ (N = 0%Z → self_fields s' = closed_fields).
Proof.
  intros Hp Hcur Hraw s' candidates N. split.
  - intros HN. subst s'.
    rewrite (resolved_applied_items options KEYS promise tags payload raw s)
      by done.
    unfold stored_items. fold candidates N.
    destruct (Z.eqb_spec N (-1)); [lia|]. unfold js_slice0.
    destruct (Z.ltb_spec N 0); [|lia]. f_equal. lia.
  - intros HN. subst s'.
    rewrite (resolved_applied options KEYS promise tags payload raw s) by done.
    assert (stored_items options raw tags = []) as Hnil.
    { unfold stored_items. fold N. rewrite HN. simpl.
      unfold js_slice0. simpl. by rewrite Z.min_l by lia. }
    rewrite bool_decide_true by done. by rewrite reset_eq.
Qed.

Lemma X6_negative_maximum_cuts_from_the_end_witness :
  let evs := [InputChange "abc" (host_with [] "abc"); TimeoutFires 0 None] in
  let fetched := RawString <$> ["abca"; "abcb"; "abcc"]%string in
  let s := run (options_showing (-2)) dom_keys
             (new_SuggestionList (options_showing (-2)) false) evs in
  let z := run (options_showing 0) dom_keys
             (new_SuggestionList (options_showing 0) false) evs in
  items (step (options_showing (-2)) dom_keys s
           (PromiseResolved 0 (PArray fetched)))
  = take (length (post_difference (options_showing (-2)) fetched [])
          - Z.to_nat (- maxResultsToShow (options_showing (-2))))
      (post_difference (options_showing (-2)) fetched [])
  ∧ self_fields (step (options_showing 0) dom_keys z
                   (PromiseResolved 0 (PArray fetched)))
    = closed_fields.
Proof.
  intros evs fetched s z. split.
  - refine (proj1 (X6_negative_maximum_cuts_from_the_end (options_showing (-2))
                     dom_keys 0 [] (PArray fetched) fetched s _ _ _) _);
      compute_done.
  - refine (proj2 (X6_negative_maximum_cuts_from_the_end (options_showing 0)
                     dom_keys 0 [] (PArray fetched) fetched z _ _ _) _);
      compute_done.
Defined.

Example negative_maximum_example :
  items (run (options_showing (-2)) dom_keys
           (new_SuggestionList (options_showing (-2)) false)
           [InputChange "abc" (host_with [] "abc"); TimeoutFires 0 None;
            PromiseResolved 0
              (PArray (RawString <$> ["abca"; "abcb"; "abcc"]%string))])
  = [tag_of "abca"].
Proof. compute_done. Qed.

(** X7. After a resolution that is applied, the stored set is a subsequence
    of what the fetch delivered (normalised), more precisely a prefix of the
    difference, and no stored candidate has the display-field value of one of
    the tags the load was called with. *)
Theorem X7_stored_set_comes_from_the_fetch
  options KEYS promise tags payload raw s :
  promises s !! promise = Some tags →
  lastPromise s = Some promise →
  payload_array payload = Some raw →
  let s' := step options KEYS s (PromiseResolved promise payload) in
  sublist (items s') (makeObjectArray raw (displayProperty options))
  ∧ (∃ k, items s' = take k (post_difference options raw tags))
  ∧ ∀ c t, c ∈ items s' → t ∈ tags → getItem options c ≠ getItem options t.
Proof.
  intros Hp Hcur Hraw s'. subst s'.
  rewrite (resolved_applied_items options KEYS promise tags payload raw s)
    by done.
  destruct (stored_items_prefix options raw tags) as [k ->].
  unfold post_difference. rewrite getDifference_filter.
  unfold difference_by_display. split_and!.
  - etrans; [apply sublist_take | apply sublist_filter].
  - by exists k.
  - intros c t Hc Ht. apply elem_of_take in Hc as (i & Hc' & _).
    apply list_elem_of_lookup_2, list_elem_of_filter in Hc' as [Habs _].
    unfold absent_from in Habs. rewrite Forall_forall in Habs. by apply Habs.
Qed.

Lemma X7_stored_set_comes_from_the_fetch_witness :
  let evs := [InputChange "abc" (host_with ["abcy"] "abc"); TimeoutFires 0 None] in
  let s := run text_options dom_keys (new_SuggestionList text_options false) evs in
  let fetched := [RawString "abcx"; RawString "abcy"] in
  let s' := step text_options dom_keys s (PromiseResolved 0 (PArray fetched)) in
  sublist (items s') (makeObjectArray fetched (displayProperty text_options))
  ∧ (∃ k, items s' = take k (post_difference text_options fetched [tag_of "abcy"]))
  ∧ ∀ c t, c ∈ items s' → t ∈ [tag_of "abcy"] →
           getItem text_options c ≠ getItem text_options t.
Proof.
  intros evs s fetched.
  apply (X7_stored_set_comes_from_the_fetch text_options dom_keys 0
           [tag_of "abcy"] (PArray fetched) fetched s); compute_done.
Defined.

(** X8. A resolution that is applied and stores a non-empty set opens the
    list: with [selectFirstMatch] on, the cursor is [0] and the first stored
    candidate is selected; with it off, the selection is [null] and the
    cursor is left where it was.  Either way the query and the load token
    stay, and one timer with delay [0] is scheduled to reset the scroll
    position. *)
Theorem X8_applied_resolution_opens_the_list
  options KEYS promise tags payload raw s :
  promises s !! promise = Some tags →
  lastPromise s = Some promise →
  payload_array payload = Some raw →
  stored_items options raw tags ≠ [] →
  let s' := step options KEYS s (PromiseResolved promise payload) in
  visible s' = true
  ∧ query s' = query s
  ∧ lastPromise s' = Some promise
  ∧ timeouts s' = <[next_timeout s := (ResetScroll, 0%Z)]> (timeouts s)
  ∧ next_timeout s' = S (next_timeout s)
  ∧ ∃ c rest,
      stored_items options raw tags = c :: rest
      ∧ (selectFirstMatch options = true →
         index s' = 0%Z ∧ selected s' = Obj c)
      ∧ (selectFirstMatch options = false →
         index s' = index s ∧ selected s' = Null).
Proof.
  intros Hp Hcur Hraw Hne s'. subst s'.
  rewrite (resolved_applied options KEYS promise tags payload raw s) by done.
  rewrite bool_decide_false by done. rewrite show_eq.
  destruct (stored_items options raw tags) as [|c rest] eqn:Hs; [done|].
  destruct (selectFirstMatch options); simpl; split_and!; try done;
    exists c, rest; split_and!; done.
Qed.

Lemma X8_applied_resolution_opens_the_list_witness :
  let evs := [InputChange "abc" (host_with [] "abc"); TimeoutFires 0 None] in
  let fetched := [RawString "abcx"; RawString "abcy"] in
  let s := run options_no_first_match dom_keys
             (new_SuggestionList options_no_first_match false) evs in
  let s' := step options_no_first_match dom_keys s
              (PromiseResolved 0 (PArray fetched)) in
  visible s' = true
  ∧ query s' = query s
  ∧ lastPromise s' = Some 0
  ∧ timeouts s' = <[next_timeout s := (ResetScroll, 0%Z)]> (timeouts s)
  ∧ next_timeout s' = S (next_timeout s)
  ∧ ∃ c rest,
      stored_items options_no_first_match fetched [] = c :: rest
      ∧ (selectFirstMatch options_no_first_match = true →
         index s' = 0%Z ∧ selected s' = Obj c)
      ∧ (selectFirstMatch options_no_first_match = false →
         index s' = index s ∧ selected s' = Null).
Proof.
  intros evs fetched s.
  apply (X8_applied_resolution_opens_the_list options_no_first_match dom_keys
           0 [] (PArray fetched) fetched s); compute_done.
Defined.

(** ** Debounce and the load token *)

(** X9. In every run from a fresh list at most one debounced load is
    pending.  A call of [load] leaves exactly one, its own, waiting for
    [debounceDelay]: the load that was pending is cancelled without a
    fetch.  The call itself changes no field of the list, issues no fetch and
    leaves the load token as it is. *)
Theorem X9_load_supersedes_the_pending_load options KEYS el evs q tags :
  let s := run options KEYS (new_SuggestionList options el) evs in
  let s' := final (load options q tags s) in
  (∀ id1 id2, load_pending s id1 → load_pending s id2 → id1 = id2)
  ∧ timeouts s' !! next_timeout s
    = Some (DebouncedLoad q tags, debounceDelay options)
  ∧ (∀ id, load_pending s' id → id = next_timeout s)
  ∧ self_fields s' = self_fields s
  ∧ lastPromise s' = lastPromise s
  ∧ promises s' = promises s
  ∧ next_promise s' = next_promise s.
Proof.
  intros s s'.
  pose proof (reachable_one_load_timer options KEYS el evs) as Hone.
  fold s in Hone. clearbody s. subst s'. split_and!.
  - intros id1 id2 H1%Hone H2%Hone. congruence.
  - rewrite load_eq. simpl. by rewrite lookup_insert_eq.
  - intros id [->|[Hid Hne]]%load_pending_after_load; [done|].
    by apply Hone in Hid.
  - by rewrite load_eq.
  - by rewrite load_eq.
  - by rewrite load_eq.
  - by rewrite load_eq.
Qed.

Example superseded_load_example :
  let s := run text_options dom_keys (new_SuggestionList text_options false)
             [InputChange "abc" (host_with [] "abc");
              InputChange "abcd" (host_with [] "abcd");
              TimeoutFires 0 None; TimeoutFires 1 None] in
  query s = Some "abcd"%string ∧ next_promise s = 1.
Proof. cbv zeta. compute_done. Qed.

(** X10. The load token changes when the debounce timer fires, not when
    [load] is called.  So a fetch in flight is still applied if it resolves
    between a later call of [load] and the firing of that call's timer; once
    the timer has fired, the token is the promise of the new fetch and the
    older resolution changes nothing. *)
Theorem X10_token_changes_when_the_timer_fires
  options KEYS promise tags0 payload raw q tags h s :
  promises s !! promise = Some tags0 →
  lastPromise s = Some promise →
  payload_array payload = Some raw →
  promise ≠ next_promise s →
  let s1 := final (load options q tags s) in
  let s2 := step options KEYS s1 (TimeoutFires (next_timeout s) h) in
  lastPromise s1 = Some promise
  ∧ items (step options KEYS s1 (PromiseResolved promise payload))
    = stored_items options raw tags0
  ∧ lastPromise s2 = Some (next_promise s)
  ∧ query s2 = Some q
  ∧ step options KEYS s2 (PromiseResolved promise payload)
    = with_promises (delete promise (promises s2)) s2.
Proof.
  intros Hp Hcur Hraw Hfresh s1 s2.
  assert (promises s1 = promises s ∧ lastPromise s1 = lastPromise s)
    as [Hp1 Hcur1] by (subst s1; by rewrite load_eq).
  assert (lastPromise s2 = Some (next_promise s) ∧ query s2 = Some q)
    as [Hcur2 Hq2].
  { subst s2. unfold step, dispatch. js_unfold. cbv beta iota.
    subst s1. rewrite load_eq. simpl. by rewrite lookup_insert_eq. }
  split_and!; try done.
  - congruence.
  - apply (resolved_applied_items options KEYS promise tags0 payload raw s1);
      congruence.
  - apply resolved_stale. congruence.
Qed.

Lemma X10_token_changes_when_the_timer_fires_witness :
  let s := run text_options dom_keys (new_SuggestionList text_options false)
             [InputChange "abc" (host_with [] "abc"); TimeoutFires 0 None] in
  let payload := PArray [RawString "abcx"] in
  let s1 := final (load text_options "abcd" [] s) in
  let s2 := step text_options dom_keys s1 (TimeoutFires (next_timeout s) None) in
  lastPromise s1 = Some 0
  ∧ items (step text_options dom_keys s1 (PromiseResolved 0 payload))
    = stored_items text_options [RawString "abcx"] []
  ∧ lastPromise s2 = Some (next_promise s)
  ∧ query s2 = Some "abcd"%string
  ∧ step text_options dom_keys s2 (PromiseResolved 0 payload)
    = with_promises (delete 0 (promises s2)) s2.
Proof.
  intros s payload.
  apply (X10_token_changes_when_the_timer_fires text_options dom_keys 0 []
           payload [RawString "abcx"] "abcd" [] None s); compute_done.
Defined.

Example stale_results_shown_example :
  let s := run text_options dom_keys (new_SuggestionList text_options false)
             [InputChange "abc" (host_with [] "abc"); TimeoutFires 0 None;
              InputChange "abcd" (host_with [] "abcd");
              PromiseResolved 0 (PArray [RawString "abcx"])] in
  visible s = true ∧ query s = Some "abc"%string
  ∧ items s = [tag_of "abcx"].
Proof. cbv zeta. compute_done. Qed.


Example blur_discards_fetch_example :
  let s := run text_options dom_keys (new_SuggestionList text_options false)
             [InputChange "abc" (host_with [] "abc"); TimeoutFires 0 None;
              InputBlur; PromiseResolved 0 (PArray [RawString "abcx"])] in
  self_fields s = closed_fields.
Proof. cbv zeta. compute_done. Qed.

(** ** Which texts are fetched *)

Lemma shouldLoadSuggestions_spec options value :
  shouldLoadSuggestions options value = true
  ↔ (value ≠ ""%string
     ∧ (minLength options ≤ Z.of_nat (String.length value))%Z)
    ∨ (value = ""%string ∧ loadOnEmpty options = true).
Proof.
  unfold shouldLoadSuggestions.
  destruct (String.eqb_spec value ""); simpl.
  - split; [by right | by intros [[] | []]].
  - rewrite orb_false_r, Z.leb_le. split; [by left | by intros [[] | []]].
Qed.

Lemma queries_qualify_ext options s s' :
  timeouts s' = timeouts s → query s' = query s →
  queries_qualify options s → queries_qualify options s'.
Proof. unfold queries_qualify. by intros -> ->. Qed.

Lemma queries_qualify_timer_gone options id s :
  queries_qualify options s →
  queries_qualify options (with_timeouts (delete id (timeouts s)) s).
Proof.
  intros [Ht Hq]. split; [|done]. simpl.
  intros id' q tags d [_ Hid]%lookup_delete_Some. by eapply Ht.
Qed.

Lemma queries_qualify_reset options s :
  queries_qualify options s → queries_qualify options (final (reset s)).
Proof.
  intros [Ht Hq]. rewrite reset_eq. split; [|done]. simpl.
  intros id q tags d Hid. destruct (debouncedLoadId s); simpl in Hid.
  - apply lookup_delete_Some in Hid as [_ Hid]. by eapply Ht.
  - by eapply Ht.
Qed.

Lemma queries_qualify_show options s :
  queries_qualify options s → queries_qualify options (final (show options s)).
Proof.
  intros [Ht Hq]. destruct (show_timers options s) as (Htimers & _).
  split.
  - rewrite Htimers. intros id q tags d Hid.
    apply lookup_insert_Some in Hid as [[_ [=]]|[_ Hid]]. by eapply Ht.
  - rewrite show_eq. by destruct (selectFirstMatch options).
Qed.

Lemma transition_queries_qualify options s s' :
  loadOnDownArrow options = false →
  transition options s s' →
  queries_qualify options s → queries_qualify options s'.
Proof.
  intros Hoff Ht Hs.
  destruct Ht as [s|s|s q tags Hq|s n|s s1 Hs1|s id q tags d Hid|s id d h _
                 |s promise tags payload _|s promise].
  - done.
  - by apply queries_qualify_reset.
  - destruct Hq as [Hq|[Hon _]]; [|congruence].
    destruct Hs as [Ht Hquery]. rewrite load_eq. split; [|done]. simpl.
    intros id q' tags' d Hid.
    apply lookup_insert_Some in Hid as [[_ [= <- <- <-]]|[_ Hid]]; [done|].
    destruct (debouncedLoadId s); simpl in Hid.
    + apply lookup_delete_Some in Hid as [_ Hid]. by eapply Ht.
    + by eapply Ht.
  - destruct (navigate_eq n s) as (i & top & keep & ->).
    rewrite select_eq. by eapply queries_qualify_ext.
  - assert (queries_qualify options s1) as Hs1'.
    { destruct Hs1 as [->|[i ->]]; [done|].
      rewrite select_eq. by eapply queries_qualify_ext. }
    rewrite addSuggestion_eq. destruct (selected s1) as [| |c]; try done.
    cbv zeta. set (s2 := final (reset _)).
    change (queries_qualify options
              (with_host_calls (host_calls s2 ++ [FocusInput]) s2)).
    apply (queries_qualify_ext options s2); [done | done |].
    subst s2. apply queries_qualify_reset.
    by apply (queries_qualify_ext options s1).
  - destruct Hs as [Ht Hquery]. destruct (Ht id q tags d Hid) as [Hq _].
    rewrite debounced_load_eq. split.
    + simpl. intros id' q' tags' d' [_ Hid']%lookup_delete_Some.
      by eapply Ht.
    + simpl. by intros q' [= <-].
  - apply (queries_qualify_timer_gone options id) in Hs.
    destruct (reset_scroll_cases h (with_timeouts (delete id (timeouts s)) s))
      as [->|[[h' ->]| ->]]; [done| |]; by eapply queries_qualify_ext.
  - assert (queries_qualify options
              (with_promises (delete promise (promises s)) s)) as Hs'
      by by eapply queries_qualify_ext.
    destruct (on_loaded_cases options promise tags payload
                (with_promises (delete promise (promises s)) s))
      as [[_ ->]|[(_ & _ & ->)|[(raw & _ & _ & _ & ->)|(raw & _ & _ & _ & ->)]]].
    + done.
    + by eapply queries_qualify_ext.
    + apply queries_qualify_show. by eapply queries_qualify_ext.
    + apply queries_qualify_reset. by eapply queries_qualify_ext.
  - by eapply queries_qualify_ext.
Qed.

Lemma reachable_queries_qualify options KEYS el evs :
  loadOnDownArrow options = false →
  queries_qualify options (run options KEYS (new_SuggestionList options el) evs).
Proof.
  intros Hoff. apply run_invariant.
  - intros s ev. apply transition_queries_qualify; [done|].
    apply step_transition.
  - rewrite new_SuggestionList_eq. split; [|done]. simpl.
    intros id q tags d Hid. by rewrite lookup_empty in Hid.
Qed.

(** X12. With [loadOnDownArrow] off, in every run from a fresh list: the
    text of a pending load, and the text the data source was last asked for
    ([self.query]), is either non-empty and at least [minLength] long, or
    empty with [loadOnEmpty] on; and every pending load waits for
    [debounceDelay]. *)
Theorem X12_only_qualifying_texts_are_fetched options KEYS el evs :
  loadOnDownArrow options = false →
  let s := run options KEYS (new_SuggestionList options el) evs in
  let qualifies (q : string) :=
    (q ≠ ""%string ∧ (minLength options ≤ Z.of_nat (String.length q))%Z)
    ∨ (q = ""%string ∧ loadOnEmpty options = true) in
  (∀ q, query s = Some q → qualifies q)
  ∧ (∀ id q tags delay,
       timeouts s !! id = Some (DebouncedLoad q tags, delay) →
       qualifies q ∧ delay = debounceDelay options).
Proof.
  intros Hoff s qualifies.
  destruct (reachable_queries_qualify options KEYS el evs Hoff) as [Ht Hq].
  fold s in Ht, Hq. split.
  - intros q Hquery. by apply shouldLoadSuggestions_spec, Hq.
  - intros id q tags d Hid. destruct (Ht id q tags d Hid) as [Hqual ->].
    split; [|done]. by apply shouldLoadSuggestions_spec.
Qed.

Lemma X12_only_qualifying_texts_are_fetched_witness :
  let s := run text_options dom_keys (new_SuggestionList text_options false)
             [InputChange "abcd" (host_with [] "abcd"); TimeoutFires 0 None] in
  ("abcd"%string ≠ ""%string
   ∧ (minLength text_options ≤ Z.of_nat (String.length "abcd"))%Z)
  ∨ ("abcd"%string = ""%string ∧ loadOnEmpty text_options = true).
Proof.
  intros s.
  refine (proj1 (X12_only_qualifying_texts_are_fetched text_options dom_keys
                   false
                   [InputChange "abcd" (host_with [] "abcd"); TimeoutFires 0 None]
                   _) "abcd"%string _); compute_done.
Defined.

(** ** Keys *)

(** X13. The keydown handler leaves alone what is not for it: a key outside
    the five hotkeys in any state, and on a closed list every key but the
    down arrow with [loadOnDownArrow] on.  Nothing changes, the event is not
    touched and the handler returns [undefined]. *)
Theorem X13_other_keys_are_left_alone options KEYS key host s :
  key ∉ hotkeys KEYS
  ∨ (visible s = false
     ∧ (key ≠ KEYS_down KEYS ∨ loadOnDownArrow options = false)) →
  on_input_keydown options KEYS key host s
  = Normal (MkKeydown false false None) s
  ∧ step options KEYS s (InputKeydown key host) = s.
Proof.
  intros Hkey.
  assert (on_input_keydown options KEYS key host s = Normal not_handled s)
    as Hkeydown.
  { unfold on_input_keydown. case_bool_decide as Hhot; [done|].
    destruct Hkey as [Hkey|[Hclosed Hkey]]; [done|].
    js_unfold. rewrite Hclosed.
    assert ((key =? KEYS_down KEYS)%Z && loadOnDownArrow options = false)
      as ->; [|done].
    destruct Hkey as [Hkey| ->]; [|by rewrite andb_false_r].
    by rewrite (proj2 (Z.eqb_neq _ _) Hkey). }
  split; [done|]. unfold step, dispatch. js_unfold. by rewrite Hkeydown.
Qed.

Lemma X13_other_keys_are_left_alone_witness :
  let opened := run text_options dom_keys
                  (new_SuggestionList text_options false) opened_events in
  on_input_keydown text_options dom_keys 65 (host_with [] "abc") opened
  = Normal (MkKeydown false false None) opened
  ∧ step text_options dom_keys opened (InputKeydown 65 (host_with [] "abc"))
    = opened.
Proof.
  intros opened.
  apply (X13_other_keys_are_left_alone text_options dom_keys 65
           (host_with [] "abc") opened).
  left. apply (bool_decide_unpack _). compute_done.
Defined.

(** X14. The down arrow on a closed list, with [loadOnDownArrow] on, calls
    [load] with the text of the input whatever that text is:
    [shouldLoadSuggestions] is not asked, so a text below [minLength] (or an
    empty one with [loadOnEmpty] off) is fetched all the same, although a
    change of the input to the same text would reset the list.  The event is
    handled. *)
Theorem X14_down_arrow_loads_any_text options KEYS host s :
  visible s = false →
  loadOnDownArrow options = true →
  let text := getCurrentTagText host in
  let s' := final (load options text (getTags host) s) in
  on_input_keydown options KEYS (KEYS_down KEYS) host s
  = Normal (MkKeydown true true (Some false)) s'
  ∧ timeouts s' !! next_timeout s
    = Some (DebouncedLoad text (getTags host), debounceDelay options)
  ∧ (shouldLoadSuggestions options text = false →
     step options KEYS s (InputChange text host) = final (reset s)).
Proof.
  intros Hclosed Hon text s'. split_and!.
  - unfold on_input_keydown.
    rewrite bool_decide_false
      by (intros Hnot; apply Hnot; unfold hotkeys; set_solver).
    js_unfold. rewrite Hclosed, Z.eqb_refl, Hon. simpl.
    fold text. subst s'. by rewrite load_eq.
  - subst s'. rewrite load_eq. simpl. by rewrite lookup_insert_eq.
  - intros Hq. unfold step, dispatch, on_input_change. by rewrite Hq.
Qed.

Lemma X14_down_arrow_loads_any_text_witness :
  let s := new_SuggestionList options_down_arrow false in
  let host := host_with [] "a" in
  let s' := final (load options_down_arrow (getCurrentTagText host)
                     (getTags host) s) in
  on_input_keydown options_down_arrow dom_keys (KEYS_down dom_keys) host s
  = Normal (MkKeydown true true (Some false)) s'
  ∧ timeouts s' !! next_timeout s
    = Some (DebouncedLoad (getCurrentTagText host) (getTags host),
            debounceDelay options_down_arrow)
  ∧ (shouldLoadSuggestions options_down_arrow (getCurrentTagText host) = false →
     step options_down_arrow dom_keys s (InputChange (getCurrentTagText host) host)
     = final (reset s)).
Proof.
  intros s host.
  apply (X14_down_arrow_loads_any_text options_down_arrow dom_keys host s);
    compute_done.
Defined.

Example down_arrow_example :
  let s := run options_down_arrow dom_keys
             (new_SuggestionList options_down_arrow false)
             [InputKeydown 40 (host_with [] "a"); TimeoutFires 0 None] in
  shouldLoadSuggestions options_down_arrow "a" = false
  ∧ query s = Some "a"%string ∧ lastPromise s = Some 0.
Proof. cbv zeta. compute_done. Qed.

Lemma hotkeys_distinct KEYS :
  NoDup (hotkeys KEYS) →
  KEYS_up KEYS ≠ KEYS_down KEYS
  ∧ KEYS_escape KEYS ≠ KEYS_down KEYS
  ∧ KEYS_escape KEYS ≠ KEYS_up KEYS.
Proof.
  unfold hotkeys. intros Hnd.
  repeat match goal with
         | H : NoDup (_ :: _) |- _ => apply NoDup_cons in H as [? H]
         end.
  set_unfold. intuition congruence.
Qed.

(** X15. On an open list, for key codes that are pairwise distinct: the down
    arrow does [selectNext], the up arrow [selectPrior] and escape [reset];
    each of the three events is handled ([preventDefault] and
    [stopImmediatePropagation] are called and the handler returns
    [false]). *)
Theorem X15_arrows_and_escape_on_an_open_list options KEYS host s :
  NoDup (hotkeys KEYS) →
  visible s = true →
  on_input_keydown options KEYS (KEYS_down KEYS) host s
  = Normal (MkKeydown true true (Some false)) (final (selectNext s))
  ∧ on_input_keydown options KEYS (KEYS_up KEYS) host s
    = Normal (MkKeydown true true (Some false)) (final (selectPrior s))
  ∧ on_input_keydown options KEYS (KEYS_escape KEYS) host s
    = Normal (MkKeydown true true (Some false)) (final (reset s))
  ∧ self_fields (final (reset s)) = closed_fields.
Proof.
  intros Hnd Hopen.
  destruct (hotkeys_distinct KEYS Hnd) as (Hud & Hed & Heu).
  split_and!.
  - unfold on_input_keydown.
    rewrite bool_decide_false
      by (intros Hnot; apply Hnot; unfold hotkeys; set_solver).
    js_unfold. rewrite Hopen, Z.eqb_refl.
    by destruct (selectNext_final s) as [s' ->].
  - unfold on_input_keydown.
    rewrite bool_decide_false
      by (intros Hnot; apply Hnot; unfold hotkeys; set_solver).
    js_unfold. rewrite Hopen, (proj2 (Z.eqb_neq _ _) Hud), Z.eqb_refl.
    by destruct (selectPrior_final s) as [s' ->].
  - unfold on_input_keydown.
    rewrite bool_decide_false
      by (intros Hnot; apply Hnot; unfold hotkeys; set_solver).
    js_unfold.
    rewrite Hopen, (proj2 (Z.eqb_neq _ _) Hed), (proj2 (Z.eqb_neq _ _) Heu),
      Z.eqb_refl.
    by rewrite reset_eq.
  - by rewrite reset_eq.
Qed.

Lemma X15_arrows_and_escape_on_an_open_list_witness :
  let opened := run text_options dom_keys
                  (new_SuggestionList text_options false) opened_events in
  let host := host_with [] "abc" in
  on_input_keydown text_options dom_keys (KEYS_down dom_keys) host opened
  = Normal (MkKeydown true true (Some false)) (final (selectNext opened))
  ∧ on_input_keydown text_options dom_keys (KEYS_up dom_keys) host opened
    = Normal (MkKeydown true true (Some false)) (final (selectPrior opened))
  ∧ on_input_keydown text_options dom_keys (KEYS_escape dom_keys) host opened
    = Normal (MkKeydown true true (Some false)) (final (reset opened))
  ∧ self_fields (final (reset opened)) = closed_fields.
Proof.
  intros opened host.
  apply (X15_arrows_and_escape_on_an_open_list text_options dom_keys host
           opened).
  - apply (bool_decide_unpack _). compute_done.
  - compute_done.
Defined.

(** ** Scrolling *)

Lemma scroll_without_element s :
  autoCompleteEl s = false ∨ liHeight s = None ∨ liHeight s = Some 0%Z →
  scroll s = Normal () s.
Proof.
  unfold scroll. js_unfold. intros [-> | [-> | ->]]; try done.
  - by destruct (liHeight s).
  - by rewrite andb_false_r.
Qed.

Lemma scroll_with_element h s :
  autoCompleteEl s = true → liHeight s = Some h → h ≠ 0%Z →
  scroll s = Normal () (with_scrollTop ((index s - 1) * h)%Z s).
Proof.
  unfold scroll. js_unfold. intros -> -> Hh.
  by rewrite (proj2 (Z.eqb_neq _ _) Hh).
Qed.

Lemma no_scrolling_ext s s' :
  autoCompleteEl s' = autoCompleteEl s → liHeight s' = liHeight s →
  scrollTop s' = scrollTop s →
  no_scrolling s → no_scrolling s'.
Proof. unfold no_scrolling. by intros -> -> ->. Qed.

Lemma no_scrolling_step options KEYS s ev :
  no_scrolling s → no_scrolling (step options KEYS s ev).
Proof.
  apply step_preserves; clear s ev.
  - intros s. rewrite reset_eq. by apply no_scrolling_ext.
  - intros s q tags. rewrite load_eq. by apply no_scrolling_ext.
  - intros s n Hs. pose proof Hs as (Hel & _).
    destruct n as [| |i]; unfold navigate.
    + rewrite selectNext_scroll, select_eq. cbv zeta. simpl.
      rewrite scroll_without_element by by left.
      by eapply no_scrolling_ext.
    + rewrite selectPrior_scroll, select_eq. cbv zeta. simpl.
      rewrite scroll_without_element by by left.
      by eapply no_scrolling_ext.
    + rewrite select_eq. by eapply no_scrolling_ext.
  - intros s c. by apply no_scrolling_ext.
  - intros s id. by apply no_scrolling_ext.
  - intros s promise. by apply no_scrolling_ext.
  - intros s q tags. by apply no_scrolling_ext.
  - intros s h Hs. unfold guarded, reset_scroll. js_unfold.
    destruct Hs as (Hel & ?). by rewrite Hel.
  - intros s promise tags payload Hs.
    destruct (on_loaded_cases options promise tags payload s)
      as [[_ ->]|[(_ & _ & ->)|[(raw & _ & _ & _ & ->)|(raw & _ & _ & _ & ->)]]];
      [done | by eapply no_scrolling_ext | |].
    + rewrite show_eq.
      destruct (selectFirstMatch options); by eapply no_scrolling_ext.
    + rewrite reset_eq. by eapply no_scrolling_ext.
Qed.

(** X16. Unless [autoResize] differs from [-1] and the element has a child
    of class [autocomplete], the directive never measures a list item and
    never assigns a scroll position, in any run from a fresh list. *)
Theorem X16_no_scrolling_without_a_list_element options KEYS el evs :
  autoResize options = (-1)%Z ∨ el = false →
  let s := run options KEYS (new_SuggestionList options el) evs in
  autoCompleteEl s = false ∧ liHeight s = None ∧ scrollTop s = 0%Z.
Proof.
  intros Hno s. apply (run_invariant options KEYS no_scrolling).
  - intros s0 ev. apply no_scrolling_step.
  - rewrite new_SuggestionList_eq. split; [|done]. simpl.
    destruct Hno as [-> | ->]; [done | by rewrite andb_false_r].
Qed.

Lemma X16_no_scrolling_without_a_list_element_witness :
  let s := run text_options dom_keys (new_SuggestionList text_options true)
             (opened_events ++ [TimeoutFires 1 (Some 20%Z);
                                InputKeydown 40 (host_with [] "abc")]) in
  autoCompleteEl s = false ∧ liHeight s = None ∧ scrollTop s = 0%Z.
Proof.
  intros s.
  apply (X16_no_scrolling_without_a_list_element text_options dom_keys true).
  left. compute_done.
Defined.

(** X17. With a list element: when the timer of [show] fires and finds a
    list item of height [h], the height is recorded and the scroll position
    set to [0].  From then on, for [h] other than [0], [selectNext] and
    [selectPrior] assign [(index - 1) * h] for the cursor they arrive at, so
    [-h] when they arrive at the first candidate. *)
Theorem X17_scroll_follows_the_cursor options KEYS id delay h s :
  autoCompleteEl s = true →
  timeouts s !! id = Some (ResetScroll, delay) →
  h ≠ 0%Z →
  let measured := step options KEYS s (TimeoutFires id (Some h)) in
  let next := final (selectNext measured) in
  let prior := final (selectPrior measured) in
  liHeight measured = Some h
  ∧ scrollTop measured = 0%Z
  ∧ self_fields measured = self_fields s
  ∧ scrollTop next = ((index next - 1) * h)%Z
  ∧ scrollTop prior = ((index prior - 1) * h)%Z
  ∧ (index next = 0%Z → scrollTop next = (- h)%Z).
Proof.
  intros Hel Hid Hh measured next prior.
  assert (measured = with_scrollTop 0 (with_liHeight (Some h)
                       (with_timeouts (delete id (timeouts s)) s))) as Hm.
  { subst measured. unfold step, dispatch. js_unfold. cbv beta iota.
    rewrite Hid. cbv beta iota. unfold guarded, reset_scroll. js_unfold.
    simpl. by rewrite Hel. }
  assert (autoCompleteEl measured = true ∧ liHeight measured = Some h)
    as [Hel' Hh'] by by rewrite Hm.
  assert (scrollTop next = ((index next - 1) * h)%Z) as Hnext.
  { subst next. rewrite selectNext_scroll. rewrite select_eq. cbv zeta.
    set (s1 := final (Normal () _)).
    rewrite (scroll_with_element h s1) by (subst s1; by simpl). done. }
  assert (scrollTop prior = ((index prior - 1) * h)%Z) as Hprior.
  { subst prior. rewrite selectPrior_scroll. rewrite select_eq. cbv zeta.
    set (s1 := final (Normal () _)).
    rewrite (scroll_with_element h s1) by (subst s1; by simpl). done. }
  split_and!; try done.
  - by rewrite Hm.
  - by rewrite Hm.
  - intros H0. rewrite Hnext, H0. lia.
Qed.

Lemma X17_scroll_follows_the_cursor_witness :
  let s := run options_resizing dom_keys
             (new_SuggestionList options_resizing true) opened_events in
  let measured := step options_resizing dom_keys s
                    (TimeoutFires 1 (Some 20%Z)) in
  let next := final (selectNext measured) in
  let prior := final (selectPrior measured) in
  liHeight measured = Some 20%Z
  ∧ scrollTop measured = 0%Z
  ∧ self_fields measured = self_fields s
  ∧ scrollTop next = ((index next - 1) * 20)%Z
  ∧ scrollTop prior = ((index prior - 1) * 20)%Z
  ∧ (index next = 0%Z → scrollTop next = (- 20)%Z).
Proof.
  intros s.
  apply (X17_scroll_follows_the_cursor options_resizing dom_keys 1 0%Z 20%Z s);
    compute_done.
Defined.

Example scroll_example :
  let s := run options_resizing dom_keys
             (new_SuggestionList options_resizing true)
             (opened_events ++ [TimeoutFires 1 (Some 20%Z);
                                InputKeydown 38 (host_with [] "abc")]) in
  index s = 2%Z ∧ scrollTop s = 20%Z
  ∧ scrollTop (step options_resizing dom_keys s
                 (InputKeydown 40 (host_with [] "abc"))) = (-20)%Z.
Proof. cbv zeta. compute_done. Qed.

(** ** Committing by index *)

Lemma step_addSuggestionByIndex options KEYS i s :
  step options KEYS s (AddSuggestionByIndex i)
  = final (addSuggestion (final (select i s))).
Proof.
  unfold step, dispatch, addSuggestionByIndex. js_unfold.
  rewrite select_eq. cbv beta iota zeta delta [final].
  match goal with
  | |- context [addSuggestion ?s1] =>
      by destruct (addSuggestion_final s1) as (b & s2 & ->)
  end.
Qed.

Lemma commit_after_select i c s :
  selected (final (select i s)) = Obj c →
  let s' := final (addSuggestion (final (select i s))) in
  host_calls s' = host_calls s ++ [AddTag c; FocusInput]
  ∧ self_fields s' = closed_fields.
Proof.
  intros Hc. pose proof (addSuggestion_calls (final (select i s))) as Hadd.
  rewrite Hc in Hadd.
  assert (host_calls (final (select i s)) = host_calls s) as Hcalls
    by by rewrite select_eq.
  by rewrite Hcalls in Hadd.
Qed.

(** X18. [addSuggestionByIndex(i)] commits the candidate [select(i)]
    arrives at: the one at [i] when [i] is inside the set, the last one for
    a negative [i], the first one for an [i] past the end; the tag is added,
    the input focused and the list closed.  On an empty set nothing is
    committed, but the call is no no-op: the cursor becomes [0] ([-1] for a
    negative [i]) and the selection [undefined]. *)
Theorem X18_commit_by_index options KEYS i s :
  let L := Z.of_nat (length (items s)) in
  let s' := step options KEYS s (AddSuggestionByIndex i) in
  let committed (c : Item) :=
    host_calls s' = host_calls s ++ [AddTag c; FocusInput]
    ∧ self_fields s' = closed_fields in
  (∀ c, (0 ≤ i)%Z → items s !! Z.to_nat i = Some c → committed c)
  ∧ (∀ c, (i < 0)%Z → last (items s) = Some c → committed c)
  ∧ (∀ c, (L ≤ i)%Z → head (items s) = Some c → committed c)
  ∧ (items s = [] →
     s' = with_selected Undefined
            (with_index (if (i <? 0)%Z then (-1)%Z else 0%Z) s)).
Proof.
  intros L s' committed. subst s' committed. cbv beta.
  rewrite step_addSuggestionByIndex. split_and!.
  - intros c Hi Hc. apply commit_after_select.
    rewrite select_eq. simpl. fold L.
    pose proof (lookup_lt_Some _ _ _ Hc) as Hlt.
    destruct (Z.ltb_spec i 0); [lia|].
    destruct (Z.geb_spec i L); [lia|].
    unfold js_at. destruct (Z.ltb_spec i 0); [lia|]. by rewrite Hc.
  - intros c Hi Hc. apply commit_after_select.
    rewrite select_eq. simpl. fold L.
    destruct (Z.ltb_spec i 0); [|lia].
    rewrite last_lookup in Hc.
    pose proof (lookup_lt_Some _ _ _ Hc) as Hlt.
    unfold js_at. destruct (Z.ltb_spec (L - 1) 0); [lia|].
    replace (Z.to_nat (L - 1)) with (pred (length (items s))) by lia.
    by rewrite Hc.
  - intros c Hi Hc. apply commit_after_select.
    rewrite select_eq. simpl. fold L.
    rewrite head_lookup in Hc.
    pose proof (lookup_lt_Some _ _ _ Hc) as Hlt.
    destruct (Z.ltb_spec i 0); [lia|].
    destruct (Z.geb_spec i L); [|lia].
    unfold js_at. replace (0 <? 0)%Z with false by done.
    change (Z.to_nat 0) with 0. by rewrite Hc.
  - intros Hnil. rewrite select_eq. cbv zeta. rewrite Hnil.
    change (Z.of_nat (length [])) with 0%Z.
    rewrite addSuggestion_eq.
    destruct (Z.ltb_spec i 0); [done|].
    destruct (Z.geb_spec i 0); [done | lia].
Qed.

Lemma X18_commit_by_index_witness :
  let opened := run text_options dom_keys
                  (new_SuggestionList text_options false) opened_events in
  let fresh := new_SuggestionList text_options false in
  (host_calls (step text_options dom_keys opened (AddSuggestionByIndex 1))
   = host_calls opened ++ [AddTag (tag_of "abcy"); FocusInput]
   ∧ self_fields (step text_options dom_keys opened (AddSuggestionByIndex 1))
     = closed_fields)
  ∧ (host_calls (step text_options dom_keys opened (AddSuggestionByIndex 7))
     = host_calls opened ++ [AddTag (tag_of "abcx"); FocusInput]
     ∧ self_fields (step text_options dom_keys opened (AddSuggestionByIndex 7))
       = closed_fields)
  ∧ step text_options dom_keys fresh (AddSuggestionByIndex 2)
    = with_selected Undefined
        (with_index (if (2 <? 0)%Z then (-1)%Z else 0%Z) fresh).
Proof.
  intros opened fresh.
  destruct (X18_commit_by_index text_options dom_keys 1 opened)
    as (Hin & _ & _ & _).
  destruct (X18_commit_by_index text_options dom_keys 7 opened)
    as (_ & _ & Hpast & _).
  destruct (X18_commit_by_index text_options dom_keys 2 fresh)
    as (_ & _ & _ & Hempty).
  split; [|split].
  - apply Hin; compute_done.
  - apply Hpast; compute_done.
  - apply Hempty. compute_done.
Defined.

(** ** The difference as an operation *)

(** X19. [getDifference] as an operation on arrays: it keeps everything when
    there are no tags, removes every candidate when the tags are the
    candidates themselves, acts on a concatenation of candidates part by
    part, takes the tags of a concatenation one part after the other, is
    idempotent, and never grows its input. *)
Theorem X19_getDifference_algebra options (c c1 c2 t t1 t2 : list Item) :
  getDifference options c [] = c
  ∧ getDifference options c c = []
  ∧ getDifference options (c1 ++ c2) t
    = getDifference options c1 t ++ getDifference options c2 t
  ∧ getDifference options c (t1 ++ t2)
    = getDifference options (getDifference options c t1) t2
  ∧ getDifference options (getDifference options c t) t
    = getDifference options c t
  ∧ length (getDifference options c t) ≤ length c.
Proof.
  rewrite !getDifference_filter. unfold difference_by_display. split_and!.
  - induction c as [|x c IH]; [done|].
    rewrite filter_cons_True, IH; [done|]. unfold absent_from. constructor.
  - apply elem_of_nil_inv. intros x [Habs Hx]%list_elem_of_filter.
    unfold absent_from in Habs. rewrite Forall_forall in Habs.
    by apply (Habs x Hx).
  - apply filter_app.
  - rewrite list_filter_filter. apply list_filter_iff. intros x.
    unfold absent_from. rewrite Forall_app. tauto.
  - rewrite list_filter_filter. apply list_filter_iff. intros x. tauto.
  - apply length_filter.
Qed.

(** ** Focus *)

(** X20. The handler of [input-focus] never closes or changes the list: it
    leaves every field, the load token and the fetches in flight as they
    are.  With [loadOnFocus] on and a text that passes
    [shouldLoadSuggestions] it calls [load] with that text; otherwise it does
    nothing at all, where the handler of [input-change] would reset the
    list. *)
Theorem X20_focus_only_ever_loads options KEYS host s :
  let text := getCurrentTagText host in
  let s' := step options KEYS s (InputFocus host) in
  self_fields s' = self_fields s
  ∧ lastPromise s' = lastPromise s
  ∧ promises s' = promises s
  ∧ (loadOnFocus options = true →
     shouldLoadSuggestions options text = true →
     s' = final (load options text (getTags host) s)
     ∧ step options KEYS s (InputChange text host) = s')
  ∧ (loadOnFocus options = false
     ∨ shouldLoadSuggestions options text = false →
     s' = s)
  ∧ (shouldLoadSuggestions options text = false →
     step options KEYS s (InputChange text host) = final (reset s)).
Proof.
  intros text s'. subst s'. unfold step, dispatch, on_input_focus,
    on_input_change. fold text.
  destruct (loadOnFocus options), (shouldLoadSuggestions options text);
    simpl; rewrite ?load_eq; split_and!; try done;
    try (by intros [|]); by intros.
Qed.

Lemma X20_focus_only_ever_loads_witness :
  let opened := run text_options dom_keys
                  (new_SuggestionList text_options false) opened_events in
  step text_options dom_keys opened (InputFocus (host_with [] "ab")) = opened
  ∧ step text_options dom_keys opened
      (InputChange (getCurrentTagText (host_with [] "ab")) (host_with [] "ab"))
    = final (reset opened).
Proof.
  intros opened.
  destruct (X20_focus_only_ever_loads text_options dom_keys
              (host_with [] "ab") opened) as (_ & _ & _ & _ & Hnone & Hreset).
  split.
  - apply Hnone. left. compute_done.
  - apply Hreset. compute_done.
Defined.
